(** * audio_analyze: a parallel-tone FSK codec

    Shallow embedding of the decoder [freq_analyzer.cpp] (recursive
    Cooley-Tukey transform, top-8 peak extraction, frequency-to-bit
    classifier, chunked session loop) and of the encoder variants
    [sine_generator.cpp] (single-tone and multi-tone synthesizers), with
    the properties stated for them.

    Numeric conventions.  A C++ [double] is modelled by an exact rational
    ([Q]); comparisons are the exact ones.  Where the rounding of binary64
    arithmetic decides a property (the number of samples, the conjugate
    mirror of the transform), module [Binary64] evaluates the same
    expressions with IEEE 754 binary64 operations.  [int], [uint8_t], [uint32_t]
    and [char] are integers in [Z] with their conversions written out.
    Container indices and lengths are [nat].  [std::complex<double>] is a
    type parameter carrying the operations the transform uses; the
    functions of <cmath> and <complex> the code calls ([std::polar],
    [std::abs], [sin], [pow]) are parameters of the sections that need
    them, and are instantiated over the real numbers where a property
    depends on their values. *)

From Stdlib Require Import ZArith QArith Qabs Qround List Lia ZifyNat Lqa Bool.
From Stdlib Require Import Ascii String.
From Stdlib Require Import Sorting.Permutation Sorting.Sorted.
From Stdlib Require Import Reals Lra.
From Stdlib Require Import Floats.
From stdpp Require Import base list.
Import ListNotations.

(** [lia] also decides goals with division and remainder by constants. *)
Ltac Zify.zify_post_hook ::= Z.to_euclidean_division_equations.

#[global] Instance Q_inhabited : Inhabited Q := populate 0%Q.

(** [a < b] on doubles, as a boolean. *)
Definition Qltb (x y : Q) : bool := negb (Qle_bool y x).

(** * Bit classifier ([frequenciesToByte], freq_analyzer.cpp) *)

Module Classifier.

(** Frequency mapping for bit positions: [(first, second)] are the tones
    for bit value 0 and bit value 1 of table position [i]. *)
Definition bitFrequencyPairs : list (Q * Q) :=
  [ (300, 500); (700, 900); (1100, 1300); (1500, 1700);
    (1900, 2100); (2300, 2500); (2700, 2900); (3100, 3300) ]%Q.

(** The locals of one iteration of the outer loop. *)
Record scan : Type := Scan {
  bit0Detected : bool;
  bit1Detected : bool;
  closestFreq : Q;
  minDiff : Q
}.

Definition scan_init : scan := Scan false false 0 1000.

(** [if (diff0 < 50 && diff0 < minDiff) { ... }] *)
Definition step0 (pair : Q * Q) (st : scan) (freq : Q) : scan :=
  let diff0 := Qabs (freq - fst pair) in
  if Qltb diff0 50 && Qltb diff0 (minDiff st)
  then Scan true false freq diff0
  else st.

(** [if (diff1 < 50 && diff1 < minDiff) { ... }] *)
Definition step1 (pair : Q * Q) (st : scan) (freq : Q) : scan :=
  let diff1 := Qabs (freq - snd pair) in
  if Qltb diff1 50 && Qltb diff1 (minDiff st)
  then Scan false true freq diff1
  else st.

(** The body of [for (double freq : detectedFrequencies)]. *)
Definition scan_step (pair : Q * Q) (st : scan) (freq : Q) : scan :=
  step1 pair (step0 pair st freq) freq.

(** The inner loop for table position [i]. *)
Definition scan_position (i : nat) (detectedFrequencies : list Q) : scan :=
  fold_left (scan_step (bitFrequencyPairs !!! i)) detectedFrequencies scan_init.

(** First pass: fills [bits] and [closestFreqs]. *)
Definition analyzeBits (detectedFrequencies : list Q) : list Z * list Q :=
  fold_left
    (fun (acc : list Z * list Q) (i : nat) =>
       let st := scan_position i detectedFrequencies in
       (<[i := if bit1Detected st then 1%Z else 0%Z]> (fst acc),
        <[i := closestFreq st]> (snd acc)))
    (seq 0 8) (replicate 8 0%Z, replicate 8 0%Q).

(** [for i in 0..7: if (bits[i]) byteValue |= (1 << (7 - i));] *)
Definition assembleByte (bits : list Z) : Z :=
  fold_left
    (fun (byteValue : Z) (i : nat) =>
       if (bits !!! i =? 0)%Z then byteValue
       else Z.lor byteValue (Z.shiftl 1 (7 - Z.of_nat i)))
    (seq 0 8) 0%Z.

(** The value returned by [frequenciesToByte] (console output left out). *)
Definition frequenciesToByte (detectedFrequencies : list Q) : Z :=
  assembleByte (fst (analyzeBits detectedFrequencies)).

(** The bit string printed as "Decoded Byte". *)
Definition bitString (bits : list Z) : list bool :=
  map (fun i => negb (bits !!! i =? 0)%Z) (seq 0 8).

(** A frequency is within tolerance of one of the two tones of [pair]. *)
Definition in_tolerance (pair : Q * Q) (f : Q) : Prop :=
  (Qabs (f - fst pair) < 50)%Q \/ (Qabs (f - snd pair) < 50)%Q.

(** Loop invariant of the inner loop: either nothing was accepted yet, or
    exactly one of the two flags is set and [minDiff] is the accepted
    difference, below the tolerance. *)
Definition scan_inv (st : scan) : Prop :=
  st = scan_init
  \/ (xorb (bit0Detected st) (bit1Detected st) = true /\ (minDiff st < 50)%Q).

End Classifier.

(** * Transform engine ([fft], freq_analyzer.cpp) *)

Module Transform.

(** The operations of [std::complex<double>] used by [fft].
    [twiddle k N] is [std::polar(1.0, -2 * M_PI * k / N)]. *)
Class ComplexOps (C : Type) : Type := {
  czero : C;
  cadd : C -> C -> C;
  csub : C -> C -> C;
  cmul : C -> C -> C;
  twiddle : nat -> nat -> C
}.

Section Generic.
Context {C : Type} `{ComplexOps C}.

#[local] Instance C_inhabited : Inhabited C := populate czero.

(** Divide: [CArray even(N / 2), odd(N / 2)] filled from [data]. *)
Definition split_loop (data : list C) (N : nat) : list C * list C :=
  fold_left
    (fun (eo : list C * list C) (i : nat) =>
       (<[i := data !!! (i * 2)%nat]> (fst eo),
        <[i := data !!! (i * 2 + 1)%nat]> (snd eo)))
    (seq 0 (N / 2))
    (replicate (N / 2) czero, replicate (N / 2) czero).

(** Combine: writes [data[k]] and [data[k + N / 2]] in place. *)
Definition combine_loop (even odd data : list C) (N : nat) : list C :=
  fold_left
    (fun (data : list C) (k : nat) =>
       let t := cmul (twiddle k N) (odd !!! k) in
       <[(k + N / 2)%nat := csub (even !!! k) t]>
         (<[k := cadd (even !!! k) t]> data))
    (seq 0 (N / 2)) data.

(** [fft] with a bound on the recursion depth; [None] means the bound
    was reached before the recursion ended.  The result is the content
    of [data] on return. *)
Fixpoint fft_fuel (fuel : nat) (data : list C) : option (list C) :=
  let N := length data in
  if (N <=? 1)%nat then Some data
  else
    match fuel with
    | O => None
    | S fuel' =>
        let eo := split_loop data N in
        match fft_fuel fuel' (fst eo), fft_fuel fuel' (snd eo) with
        | Some even, Some odd => Some (combine_loop even odd data N)
        | _, _ => None
        end
    end.

(** [fft] as a total function: recursion depth at most [length data]. *)
Definition fft (data : list C) : list C :=
  default data (fft_fuel (length data) data).

End Generic.

#[global] Existing Instance C_inhabited.

(** Complex numbers over the reals: [std::complex] arithmetic without
    rounding, [std::polar(1.0, theta) = (cos theta, sin theta)]. *)
Abbreviation RC := (R * R)%type.

Definition RCadd (a b : RC) : RC := (fst a + fst b, snd a + snd b)%R.
Definition RCsub (a b : RC) : RC := (fst a - fst b, snd a - snd b)%R.
Definition RCmul (a b : RC) : RC :=
  (fst a * fst b - snd a * snd b, fst a * snd b + snd a * fst b)%R.
Definition RCpolar (rho theta : R) : RC := (rho * cos theta, rho * sin theta)%R.
Definition RCtwiddle (k N : nat) : RC :=
  RCpolar 1 (-2 * PI * INR k / INR N)%R.

#[global] Instance RC_ops : ComplexOps RC := {|
  czero := (0, 0)%R;
  cadd := RCadd;
  csub := RCsub;
  cmul := RCmul;
  twiddle := RCtwiddle
|}.




(** Gaussian rationals with the twiddle factors of the lengths up to 4,
    which are exact ([1] and [-i]); used to run the transform on small
    windows. *)
Abbreviation QC := (Q * Q)%type.

Definition QCtwiddle4 (k N : nat) : QC :=
  match N, k with
  | 4%nat, 1%nat => (0, -1)%Q
  | _, _ => (1, 0)%Q
  end.

Definition QC4_ops : ComplexOps QC := {|
  czero := (0, 0)%Q;
  cadd := fun a b => (fst a + fst b, snd a + snd b)%Q;
  csub := fun a b => (fst a - fst b, snd a - snd b)%Q;
  cmul := fun a b =>
    (fst a * fst b - snd a * snd b, fst a * snd b + snd a * fst b)%Q;
  twiddle := QCtwiddle4
|}.

End Transform.

(** * Spectral peak extractor ([getTop8Frequencies], freq_analyzer.cpp) *)

Module Peaks.

(** [std::greater<>] on [std::pair<double, int>]: [a > b] is [b < a] for
    the lexicographic [operator<] of pairs. *)
Definition pair_lt (a b : Q * nat) : bool :=
  Qltb (fst a) (fst b)
  || (negb (Qltb (fst b) (fst a)) && (snd a <? snd b)%nat).

Definition greater (a b : Q * nat) : bool := pair_lt b a.

(** [std::sort(begin, end, std::greater<>())], as an insertion sort.  The
    (magnitude, bin) pairs have pairwise different bins, so no two are
    equivalent for [greater] and the sorted sequence is unique
    (see [PeaksFacts.sorted_unique]). *)
Fixpoint insert_desc (x : Q * nat) (l : list (Q * nat)) : list (Q * nat) :=
  match l with
  | [] => [x]
  | y :: l' => if greater x y then x :: y :: l' else y :: insert_desc x l'
  end.

Definition sort_desc (l : list (Q * nat)) : list (Q * nat) :=
  fold_right insert_desc [] l.

(** [a] comes before [b] in the ranking: strictly larger magnitude, or
    the same magnitude and a higher bin index. *)
Definition gt_pair (a b : Q * nat) : Prop :=
  (fst b < fst a)%Q \/ (fst a == fst b /\ (snd b < snd a)%nat).

(** [a] is not below [b]. *)
Definition ge_pair (a b : Q * nat) : Prop := ~ gt_pair b a.

Section Extract.
Context {C : Type} `{Inhabited C}.
(** [std::abs] on [std::complex<double>]. *)
Variable cabs : C -> Q.

(** [for (int i = 1; i < N / 2; ++i) magnitudes.emplace_back(|X[i]|, i)] *)
Definition magnitudes (fftResult : list C) (N : nat) : list (Q * nat) :=
  map (fun i => (cabs (fftResult !!! i), i)) (seq 1 (N / 2 - 1)).

(** [(peakIndex * sampleRate) / N], for [N <> 0] (division by 0 is 0 in
    [Q], not a number in [double]). *)
Definition bin_frequency (N : nat) (sampleRate : Q) (peakIndex : nat) : Q :=
  (inject_Z (Z.of_nat peakIndex) * sampleRate) / inject_Z (Z.of_nat N).

(** The retained (magnitude, bin) pairs: the first 8 after sorting. *)
Definition topPeaks (fftResult : list C) (N : nat) : list (Q * nat) :=
  take 8 (sort_desc (magnitudes fftResult N)).

Definition getTop8Frequencies
    (fftResult : list C) (N : nat) (sampleRate : Q) : list Q :=
  map (fun p => bin_frequency N sampleRate (snd p)) (topPeaks fftResult N).

End Extract.

End Peaks.

(** * Chunked session loop ([main], freq_analyzer.cpp) *)

Module Session.

(** [static_cast<char>(int)] with an 8-bit signed [char]. *)
Definition char_of_int (v : Z) : Z := ((v + 128) mod 256 - 128)%Z.

(** What one call [sf_readf_double(file, buffer.data(), CHUNK_SIZE)] does:
    it returns the number of frames read and stores
    [readSamples * numChannels] interleaved samples at the start of
    [buffer]. *)
Record read_result : Type := Read {
  readSamples : nat;
  samples : list Q
}.

(** The variables that live across iterations of the [while] loop.
    ([fftInput] is overwritten entirely in each processed iteration.) *)
Record state : Type := State {
  buffer : list Q;
  asciiMessage : list Z
}.

Section Loop.
Context {C : Type} `{Transform.ComplexOps C}.
(** [std::abs] and [Complex(x, 0.0)]. *)
Variable cabs : C -> Q.
Variable complex_of_real : Q -> C.
(** The [#define]s [CHUNK_SIZE] and [MIN_SAMPLES]. *)
Variables CHUNK_SIZE MIN_SAMPLES : nat.
(** [sfinfo.channels] and [sfinfo.samplerate]. *)
Variable numChannels : nat.
Variable sampleRate : Z.

(** The frames read overwrite the start of [buffer]. *)
Definition store_read (rd : read_result) (buffer : list Q) : list Q :=
  samples rd ++ drop (length (samples rd)) buffer.

(** [std::fill(buffer.begin() + readSamples, buffer.end(), 0)] *)
Definition zero_fill (readSamples : nat) (buffer : list Q) : list Q :=
  take readSamples buffer ++ replicate (length buffer - readSamples) 0%Q.

(** The body of [for (int i = 0; i < readSamples; ++i)] of the
    stereo-to-mono conversion, on the buffer itself. *)
Definition downmix_frame (buffer : list Q) (i : nat) : list Q :=
  let buffer := <[i := 0%Q]> buffer in
  let buffer :=
    fold_left
      (fun (buffer : list Q) (ch : nat) =>
         <[i := (buffer !!! i + buffer !!! (i * numChannels + ch)%nat)%Q]>
           buffer)
      (seq 0 numChannels) buffer in
  <[i := (buffer !!! i / inject_Z (Z.of_nat numChannels))%Q]> buffer.

(** [if (numChannels > 1) { for ... }] *)
Definition downmix (readSamples : nat) (buffer : list Q) : list Q :=
  if (1 <? numChannels)%nat
  then fold_left downmix_frame (seq 0 readSamples) buffer
  else buffer.

(** [for i < CHUNK_SIZE: fftInput[i] = Complex(buffer[i], 0.0)] *)
Definition load_fftInput (buffer : list Q) : list C :=
  map (fun i => complex_of_real (buffer !!! i)) (seq 0 CHUNK_SIZE).

(** Normalize: zero-pad, then down-mix. *)
Definition normalize_window (readSamples : nat) (buffer : list Q)
    : list Q :=
  downmix readSamples (zero_fill readSamples buffer).

(** Decode: transform, extract and classify the normalized window. *)
Definition decode_window (buffer : list Q) : Z :=
  let fftInput := Transform.fft (load_fftInput buffer) in
  let detectedFrequencies :=
    Peaks.getTop8Frequencies cabs
      fftInput CHUNK_SIZE (inject_Z sampleRate) in
  Classifier.frequenciesToByte detectedFrequencies.

(** One iteration of the [while] body, after a read that returned
    [readSamples > 0]. *)
Definition cycle (st : state) (rd : read_result) : state :=
  let buffer := store_read rd (buffer st) in
  if (readSamples rd <? MIN_SAMPLES)%nat
  then State buffer (asciiMessage st)
  else
    let buffer := normalize_window (readSamples rd) buffer in
    State buffer (asciiMessage st ++ [char_of_int (decode_window buffer)]).

(** The [while] loop over the successive results of [sf_readf_double];
    it ends at the first read that returns no frame (or when the source
    has nothing more to return). *)
Fixpoint run (reads : list read_result) (st : state) : state :=
  match reads with
  | [] => st
  | rd :: rest =>
      if (0 <? readSamples rd)%nat then run rest (cycle st rd) else st
  end.

Definition initial_state : state :=
  State (replicate (CHUNK_SIZE * numChannels) 0%Q) [].

(** The message [main] prints at the end. *)
Definition decoded_message (reads : list read_result) : list Z :=
  asciiMessage (run reads initial_state).

(** A read fits the buffer and holds at least [readSamples] entries. *)
Definition read_fits (rd : read_result) : Prop :=
  (readSamples rd <= length (samples rd))%nat
  /\ (length (samples rd) <= CHUNK_SIZE * numChannels)%nat.

(** The reads the loop decodes, in order. *)
Fixpoint decoded_reads (reads : list read_result) : list read_result :=
  match reads with
  | [] => []
  | rd :: rest =>
      if (0 <? readSamples rd)%nat
      then (if (readSamples rd <? MIN_SAMPLES)%nat
            then decoded_reads rest else rd :: decoded_reads rest)
      else []
  end.

(** The byte decoded from one read taken on its own, into a fresh
    buffer. *)
Definition window_byte (rd : read_result) : Z :=
  char_of_int
    (decode_window
       (normalize_window (readSamples rd)
          (store_read rd (replicate (CHUNK_SIZE * numChannels) 0%Q)))).

(** The number of reads the loop decodes: those of at least
    [MIN_SAMPLES] frames, up to the first read that returns no frame. *)
Fixpoint decoded_windows (reads : list read_result) : nat :=
  match reads with
  | [] => 0
  | rd :: rest =>
      if (0 <? readSamples rd)%nat
      then (if (readSamples rd <? MIN_SAMPLES)%nat then 0 else 1)
           + decoded_windows rest
      else 0
  end%nat.

End Loop.

(** [#define SAMPLE_RATE 44100], [CHUNK_SIZE SAMPLE_RATE],
    [MIN_SAMPLES 44000]. *)
Definition SAMPLE_RATE : nat := Z.to_nat 44100.
Definition CHUNK_SIZE : nat := SAMPLE_RATE.
Definition MIN_SAMPLES : nat := Z.to_nat 44000.

(** A full window of a two-channel source in which every sample of both
    channels is 1/2, read into the initial buffer. *)
Definition half_scale_stereo : read_result :=
  Read CHUNK_SIZE (replicate (CHUNK_SIZE * 2) (1 # 2)).

Definition half_scale_buffer : list Q :=
  store_read half_scale_stereo (replicate (CHUNK_SIZE * 2) 0%Q).

End Session.

(** * Waveform synthesizers ([sine_generator.cpp] and its variants) *)

Module Synth.
#[local] Open Scope Q_scope.

(** [static_cast] of a [double] to an integer type: truncation toward
    zero (the behaviour is undefined when the truncated value is not
    representable in the target type). *)
Definition Qtruncate (x : Q) : Z := Z.quot (Qnum x) (Z.pos (Qden x)).

(** [round]: nearest integer, halfway cases away from zero. *)
Definition Qround_nearest (x : Q) : Z :=
  if Qltb x 0 then (- Qfloor (- x + (1 # 2)))%Z else Qfloor (x + (1 # 2)).

Definition uint32_wrap (z : Z) : Z := (z mod 2 ^ 32)%Z.
Definition uint8_wrap (z : Z) : Z := (z mod 2 ^ 8)%Z.

(** The fields of [WavHeader] that [sine_gen] computes. *)
Record WavHeader : Type := Header {
  wav_size : Z;
  sample_rate : Z;
  byte_rate : Z;
  data_bytes : Z
}.

Record wav : Type := Wav { header : WavHeader; pcm : list Z }.

Definition make_header (sample_rate : Q) (num_samples : Z) : WavHeader :=
  let rate := Qtruncate sample_rate in
  let bytes := uint32_wrap (num_samples * (16 / 8)) in
  Header (uint32_wrap (36 + bytes)) rate
         (uint32_wrap (rate * 1 * (16 / 8))) bytes.

(** [M_PI], the double nearest to pi. *)
Definition M_PI : Q := 884279719003555 # 281474976710656.

(** ** Message conversion *)

(** [binary_to_bits] (single-tone variant): the bits, and the characters
    for which a warning is written to [std::cerr]. *)
Definition binary_to_bits (binary : string) : list bool * list ascii :=
  fold_left
    (fun (acc : list bool * list ascii) (c : ascii) =>
       if Ascii.eqb c "0" then (fst acc ++ [false], snd acc)
       else if Ascii.eqb c "1" then (fst acc ++ [true], snd acc)
       else (fst acc, snd acc ++ [c]))
    (list_ascii_of_string binary) ([], []).

(** The characters [binary_to_bits] turns into bits. *)
Definition is_binary (c : ascii) : bool := Ascii.eqb c "0" || Ascii.eqb c "1".

(** The exceptions of [std::stoi]. *)
Inductive exn : Type := invalid_argument | out_of_range.

Definition isspace (c : ascii) : bool :=
  match nat_of_ascii c with
  | 32%nat | 9%nat | 10%nat | 11%nat | 12%nat | 13%nat => true
  | _ => false
  end.

Fixpoint skip_space (s : string) : string :=
  match s with
  | String c s' => if isspace c then skip_space s' else s
  | EmptyString => s
  end.

(** The longest prefix of base-2 digits: its value and its length. *)
Fixpoint digits2 (s : string) (acc : Z) (n : nat) : Z * nat :=
  match s with
  | String c s' =>
      if Ascii.eqb c "0" then digits2 s' (2 * acc)%Z (S n)
      else if Ascii.eqb c "1" then digits2 s' (2 * acc + 1)%Z (S n)
      else (acc, n)
  | EmptyString => (acc, n)
  end.

(** [std::stoi(str, nullptr, 2)]: [strtol] skips white space, reads an
    optional sign and the longest run of binary digits; no digit at all
    throws [std::invalid_argument], a value outside [int] throws
    [std::out_of_range]. *)
Definition stoi2 (str : string) : exn + Z :=
  let s := skip_space str in
  let sg :=
    match s with
    | String c s' =>
        if Ascii.eqb c "-" then (true, s')
        else if Ascii.eqb c "+" then (false, s')
        else (false, s)
    | EmptyString => (false, s)
    end in
  let vn := digits2 (snd sg) 0%Z 0%nat in
  if (snd vn =? 0)%nat then inl invalid_argument
  else
    let v := if fst sg then (- fst vn)%Z else fst vn in
    if ((v <? - 2 ^ 31) || (2 ^ 31 - 1 <? v))%Z then inl out_of_range
    else inr v.

(** The loop [for (size_t i = 0; i < binary.length(); i += 8)] of
    [binary_to_bytes]; [fuel] bounds the number of iterations. *)
Fixpoint bytes_loop (fuel i : nat) (binary : string) (bytes : list Z)
    : exn + list Z :=
  match fuel with
  | O => inr bytes
  | S fuel' =>
      if (i <? String.length binary)%nat then
        match stoi2 (substring i 8 binary) with
        | inl e => inl e
        | inr v => bytes_loop fuel' (i + 8)%nat binary (bytes ++ [uint8_wrap v])
        end
      else inr bytes
  end.

(** [binary_to_bytes] (multi-tone variants).  The loop runs at most
    [length binary] times. *)
Definition binary_to_bytes (binary : string) : exn + list Z :=
  bytes_loop (String.length binary) 0 binary [].

(** ** Sample count *)

(** [bit_duration * count] with [bit_duration = 1.0 / bps]. *)
Definition total_duration (bps : Q) (count : nat) : Q :=
  (1 / bps) * inject_Z (Z.of_nat count).

(** [static_cast<uint32_t>(total_duration * sample_rate)], in exact
    arithmetic and without the 32-bit bound; [Binary64.num_samples]
    evaluates it as the code does. *)
Definition num_samples (bps : Q) (count : nat) (sample_rate : Q) : Z :=
  Qtruncate (total_duration bps count * sample_rate).

Section Waveform.
(** [sin] and [pow] of <cmath>. *)
Variable sin : Q -> Q.
Variable pow : Q -> Q -> Q.

(** [t / bit_duration], truncated and clamped to the last index. *)
Definition slot_index (bps : Q) (count : nat) (t : Q) : nat :=
  let idx := Qtruncate (t / (1 / bps)) in
  if (Z.of_nat count <=? idx)%Z then (count - 1)%nat else Z.to_nat idx.

(** *** Single-tone variant (sine_generator.cpp, first program) *)

Definition freq_0 : Q := 1000.
Definition freq_1 : Q := 2000.

Definition tone_sample (bits : list bool) (bps amplitude sample_rate : Q)
    (i : nat) : Z :=
  let t := inject_Z (Z.of_nat i) / sample_rate in
  let bit_index := slot_index bps (length bits) t in
  let frequency := if (bits !!! bit_index : bool) then freq_1 else freq_0 in
  let sample := amplitude * sin (2 * M_PI * frequency * t) in
  Qtruncate (sample * 32767).

Definition sine_gen_tone (msg : string) (bps level_dbfs sample_rate_khz : Q)
    : wav * list ascii :=
  let sample_rate := sample_rate_khz * 1000 in
  let amplitude := pow 10 (level_dbfs / 20) in
  let bw := binary_to_bits msg in
  let n := num_samples bps (length (fst bw)) sample_rate in
  (Wav (make_header sample_rate n)
       (map (tone_sample (fst bw) bps amplitude sample_rate)
            (seq 0 (Z.to_nat n))),
   snd bw).

(** *** Multi-tone variants *)

Definition freq_table : list (Q * Q) :=
  [ (300, 500); (700, 900); (1100, 1300); (1500, 1700);
    (1900, 2100); (2300, 2500); (2700, 2900); (3100, 3300) ]%Q.

(** [freq_table[bit][bit_value]] *)
Definition table_freq (bit : nat) (bit_value : bool) : Q :=
  let row := freq_table !!! bit in
  if bit_value then snd row else fst row.

(** [(current_byte >> (7 - bit)) & 1] (the variant with command-line
    flags) and [(current_byte >> bit) & 1] (sine_generator.cpp, second
    program). *)
Definition bit_value_msb (current_byte : Z) (bit : nat) : bool :=
  negb (Z.land (Z.shiftr current_byte (7 - Z.of_nat bit)) 1 =? 0)%Z.
Definition bit_value_lsb (current_byte : Z) (bit : nat) : bool :=
  negb (Z.land (Z.shiftr current_byte (Z.of_nat bit)) 1 =? 0)%Z.

(** The eight tones present while [current_byte] is being sent. *)
Definition tones (bit_value : Z -> nat -> bool) (current_byte : Z)
    : list Q :=
  map (fun bit => table_freq bit (bit_value current_byte bit)) (seq 0 8).

Definition multi_sample (bit_value : Z -> nat -> bool)
    (bytes : list Z) (bps amplitude sample_rate : Q) (i : nat) : Z :=
  let t := inject_Z (Z.of_nat i) / sample_rate in
  let byte_index := slot_index bps (length bytes) t in
  let current_byte : Z := bytes !!! byte_index in
  let sample :=
    fold_left
      (fun (sample : Q) (bit : nat) =>
         sample
         + sin (2 * M_PI * table_freq bit (bit_value current_byte bit) * t))
      (seq 0 8) 0 in
  Qtruncate ((sample / 8) * amplitude * 32767).

(** [sine_gen] of the multi-tone variants, for either bit order; the
    sample rate [sample_rate_khz * 1000.0] and the sample count are the
    exact values here. *)
Definition sine_gen_with (bit_value : Z -> nat -> bool)
    (msg : string) (bps level_dbfs sample_rate_khz : Q) : exn + wav :=
  let sample_rate := sample_rate_khz * 1000 in
  let amplitude := pow 10 (level_dbfs / 20) in
  match binary_to_bytes msg with
  | inl e => inl e
  | inr bytes =>
      let n := num_samples bps (length bytes) sample_rate in
      inr (Wav (make_header sample_rate n)
               (map (multi_sample bit_value bytes bps amplitude sample_rate)
                    (seq 0 (Z.to_nat n))))
  end.

(** [sine_gen] of the variant with command-line flags. *)
Definition sine_gen := sine_gen_with bit_value_msb.

(** [sine_gen] of sine_generator.cpp, second program. *)
Definition sine_gen_lsb := sine_gen_with bit_value_lsb.

End Waveform.

End Synth.

(** * Loops that fill an array by index *)

Module Loops.
Section Fill.
Context {A : Type}.

(** [for (i = 0; i < n; i++) l[i] = g(i);] *)
Definition fill (g : nat -> A) (n : nat) (l : list A) : list A :=
  fold_left (fun (acc : list A) (i : nat) => <[i := g i]> acc) (seq 0 n) l.

(** [for (k = 0; k < n; k++) { l[k] = g1(k); l[k + h] = g2(k); }] *)
Definition fill2 (g1 g2 : nat -> A) (h n : nat) (l : list A) : list A :=
  fold_left
    (fun (acc : list A) (k : nat) =>
       <[(k + h)%nat := g2 k]> (<[k := g1 k]> acc))
    (seq 0 n) l.

End Fill.
End Loops.

(** * Single-tone analyzer (the two earlier versions of freq_analyzer.cpp) *)

Module SingleTone.

Section Dominant.
Context {C : Type} `{Inhabited C}.
(** [std::abs] on [std::complex<double>]. *)
Variable cabs : C -> Q.

(** The body of [for (int i = 1; i < N / 2; ++i)] in
    [getDominantFrequency], on [(peakIndex, maxMagnitude)]. *)
Definition dominant_step (fftResult : list C) (st : nat * Q) (i : nat)
    : nat * Q :=
  let magnitude := cabs (fftResult !!! i) in
  if Qltb (snd st) magnitude then (i, magnitude) else st.

Definition dominant_peak (fftResult : list C) (N : nat) : nat * Q :=
  fold_left (dominant_step fftResult) (seq 1 (N / 2 - 1)) (0%nat, 0%Q).

Definition getDominantFrequency
    (fftResult : list C) (N : nat) (sampleRate : Q) : Q :=
  Peaks.bin_frequency N sampleRate (fst (dominant_peak fftResult N)).

End Dominant.

(** What one window adds to [msg]: 0 for a dominant frequency in
    [900, 1000], 1 for one in [1900, 2000] (two [if]s in sequence). *)
Definition tone_bits (dominantFreq : Q) : list Z :=
  (if Qle_bool 900 dominantFreq && Qle_bool dominantFreq 1000
   then [0%Z] else [])
  ++ (if Qle_bool 1900 dominantFreq && Qle_bool dominantFreq 2000
      then [1%Z] else []).

(** [std::bitset<8>] filled with [charBits[j] = msg[i + 7 - j]], then
    [to_ulong]. *)
Definition bitset_value (b0 b1 b2 b3 b4 b5 b6 b7 : Z) : Z :=
  fold_left
    (fun (v : Z) (jb : nat * Z) =>
       if (snd jb =? 0)%Z then v else Z.lor v (Z.shiftl 1 (Z.of_nat (fst jb))))
    [(0%nat, b7); (1%nat, b6); (2%nat, b5); (3%nat, b4);
     (4%nat, b3); (5%nat, b2); (6%nat, b1); (7%nat, b0)] 0%Z.

(** [for (size_t i = 0; i + 7 < msg.size(); i += 8)]: the conversion of
    the bit sequence to characters (second version). *)
Fixpoint pack_ascii (msg : list Z) : list Z :=
  match msg with
  | b0 :: b1 :: b2 :: b3 :: b4 :: b5 :: b6 :: b7 :: rest =>
      Session.char_of_int (bitset_value b0 b1 b2 b3 b4 b5 b6 b7)
      :: pack_ascii rest
  | _ => []
  end.

End SingleTone.

(** * Console rendering of the decoded message ([main], freq_analyzer.cpp) *)

Module Render.

(** [isprint] in the C locale, on a [char] value. *)
Definition isprint (c : Z) : bool := ((32 <=? c) && (c <=? 126))%Z.

(** [for (char c : asciiMessage) cout << (isprint(c) ? c : '?')], as
    character codes. *)
Definition render (asciiMessage : list Z) : list Z :=
  map (fun c => if isprint c then c else 63%Z) asciiMessage.

End Render.

(** * The discrete Fourier transform, over the reals *)

Module Dft.
Import Transform.


(** The sum of [f 0 .. f (n - 1)]. *)
Fixpoint RCsum (f : nat -> RC) (n : nat) : RC :=
  match n with
  | O => (0, 0)%R
  | S n' => RCadd (RCsum f n') (f n')
  end.


End Dft.

(** * Messages written out in binary *)

Module Spelling.

(** The character of a binary digit. *)
Definition digit (b : bool) : ascii := if b then "1"%char else "0"%char.

(** A group of binary digits as the string the user types. *)
Definition digits (group : list bool) : string :=
  string_of_list_ascii (map digit group).

(** The number a group of binary digits denotes, first digit most
    significant. *)
Definition group_value (group : list bool) : Z :=
  fold_left (fun (acc : Z) (d : bool) => (2 * acc + Z.b2z d)%Z) group 0%Z.

(** The eight bits of a byte, most significant first. *)
Definition byte_bools (b : Z) : list bool :=
  map (fun k => Z.testbit b (7 - Z.of_nat k)) (seq 0 8).

(** A message: its bytes written one after the other, eight digits
    each. *)
Definition spell (bytes : list Z) : string :=
  digits (concat (map byte_bools bytes)).

End Spelling.

(** * The loop of the single-tone analyzers ([main], both versions) *)

Module SingleToneSession.
Import Session.

(** [buffer] and the global [msg]. *)
Record state : Type := State {
  buffer : list Q;
  msg : list Z
}.

Section Loop.
Context {C : Type} `{Transform.ComplexOps C}.
Variable cabs : C -> Q.
Variable complex_of_real : Q -> C.
Variables CHUNK_SIZE MIN_SAMPLES : nat.
Variable numChannels : nat.
Variable sampleRate : Z.

(** Transform the window, find the dominant frequency, push its bit. *)
Definition window_bits (buffer : list Q) : list Z :=
  let fftInput :=
    Transform.fft (load_fftInput complex_of_real CHUNK_SIZE buffer) in
  SingleTone.tone_bits
    (SingleTone.getDominantFrequency cabs fftInput CHUNK_SIZE
       (inject_Z sampleRate)).

(** One iteration of the [while] body. *)
Definition cycle (st : state) (rd : read_result) : state :=
  let buffer := store_read rd (buffer st) in
  if (readSamples rd <? MIN_SAMPLES)%nat
  then State buffer (msg st)
  else
    let buffer := normalize_window numChannels (readSamples rd) buffer in
    State buffer (msg st ++ window_bits buffer).

Fixpoint run (reads : list read_result) (st : state) : state :=
  match reads with
  | [] => st
  | rd :: rest =>
      if (0 <? readSamples rd)%nat then run rest (cycle st rd) else st
  end.

Definition initial_state : state :=
  State (replicate (CHUNK_SIZE * numChannels) 0%Q) [].

(** The bit sequence printed after "Message:". *)
Definition decoded_bits (reads : list read_result) : list Z :=
  msg (run reads initial_state).

(** The characters the second version prints. *)
Definition decoded_text (reads : list read_result) : list Z :=
  SingleTone.pack_ascii (decoded_bits reads).

End Loop.

(** The first version writes the bits of [msg] into a string and reads it
    back with [std::stoi], in base 10, before the conversion to [char].
    ([msg] holds only the integers 0 and 1, one character each.) *)
Definition decimal_value (msg : list Z) : Z :=
  fold_left (fun (acc : Z) (d : Z) => (10 * acc + d)%Z) msg 0%Z.

Definition decode_decimal (msg : list Z) : Synth.exn + Z :=
  match msg with
  | [] => inl Synth.invalid_argument
  | _ =>
      let int_msg := decimal_value msg in
      if (2 ^ 31 - 1 <? int_msg)%Z then inl Synth.out_of_range
      else inr (char_of_int int_msg)
  end.

End SingleToneSession.

(** * Command line of the synthesizer with flags ([main]) *)

Module Cli.

(** The local variables of [main] that the arguments set. *)
Record settings : Type := Settings {
  msg : string;
  bps : Q;
  level_dbfs : Q;
  sample_rate_khz : Q;
  output_file : string
}.

Definition defaults : settings := Settings "" 1 (-3) 44.1 "".

(** How [main] ends: exit status 1 before anything is generated, an
    exception of [std::stoi] that nothing catches, or a waveform written
    under the given name, or under the default name, which carries
    [ext_total_duration]. *)
Inductive outcome : Type :=
  | missing_message
  | thrown (e : Synth.exn)
  | generated (name : string + Z) (w : Synth.wav).

Section Main.
Variable sin : Q -> Q.
Variable pow : Q -> Q -> Q.
(** The values [sscanf(arg, "%lf %lf %lf", ...)] converts, in order (at
    most three). *)
Variable scan_doubles : string -> list Q.

(** [sscanf] assigns the fields it converted and leaves the others. *)
Definition assign_scanned (vals : list Q) (s : settings) : settings :=
  match vals with
  | [] => s
  | [b] => Settings (msg s) b (level_dbfs s) (sample_rate_khz s) (output_file s)
  | [b; l] => Settings (msg s) b l (sample_rate_khz s) (output_file s)
  | b :: l :: r :: _ => Settings (msg s) b l r (output_file s)
  end.

(** [for (int i = 1; i < argc; ++i)] over [argv[1 ..]]: a flag takes the
    next argument as its value; a flag in last position and any other
    argument are skipped. *)
Fixpoint parse (args : list string) (s : settings) : settings :=
  match args with
  | [] => s
  | a :: rest =>
      match rest with
      | [] => s
      | v :: rest' =>
          if String.eqb a "-m" then
            parse rest' (Settings v (bps s) (level_dbfs s)
                                  (sample_rate_khz s) (output_file s))
          else if String.eqb a "-s" then
            parse rest' (assign_scanned (scan_doubles v) s)
          else if String.eqb a "-o" then
            parse rest' (Settings (msg s) (bps s) (level_dbfs s)
                                  (sample_rate_khz s) v)
          else parse rest s
      end
  end.

Definition main (args : list string) : outcome :=
  let s := parse args defaults in
  if (String.length (msg s) =? 0)%nat then missing_message
  else
    let bit_duration := (1 / bps s)%Q in
    let total_duration :=
      (bit_duration * inject_Z (Z.of_nat (String.length (msg s) / 8)))%Q in
    let ext_total_duration := Synth.Qtruncate total_duration in
    let name :=
      if (String.length (output_file s) =? 0)%nat
      then inr ext_total_duration else inl (output_file s) in
    match Synth.sine_gen sin pow (msg s) (bps s) (level_dbfs s)
                         (sample_rate_khz s) with
    | inl e => thrown e
    | inr w => generated name w
    end.

End Main.

End Cli.

(** * Binary64 evaluation

    The operations of IEEE 754 binary64 (round to nearest, ties to even),
    as the code performs them on [double]s, for the properties that
    rounding decides. *)

Module Binary64.
Import Transform.
#[local] Open Scope float_scope.

(** The rational a finite [double] denotes. *)
Definition value (x : float) : option Q :=
  match Prim2SF x with
  | S754_zero _ => Some 0%Q
  | S754_finite s m e =>
      Some ((if s then - inject_Z (Z.pos m) else inject_Z (Z.pos m))
            * Qpower 2 e)%Q
  | S754_infinity _ => None
  | S754_nan => None
  end.

(** The conversion of a non-negative [int] to [double]. *)
Definition of_int (n : Z) : float := PrimFloat.of_uint63 (Uint63.of_Z n).

(** [static_cast<uint32_t>] of a [double]: truncation toward zero; the
    behaviour is undefined ([None]) when the truncated value is not a
    [uint32_t]. *)
Definition uint32_of_double (x : float) : option Z :=
  match value x with
  | Some q =>
      let t := Synth.Qtruncate q in
      if ((0 <=? t) && (t <? 2 ^ 32))%Z then Some t else None
  | None => None
  end.

(** [total_duration * sample_rate] in [sine_gen], with
    [sample_rate = sample_rate_khz * 1000.0], [bit_duration = 1.0 / bps]
    and [total_duration = bit_duration * num_bytes]. *)
Definition sample_product (bps : float) (num_bytes : nat)
    (sample_rate_khz : float) : float :=
  let sample_rate := sample_rate_khz * 1000 in
  let bit_duration := 1 / bps in
  let total_duration := bit_duration * of_int (Z.of_nat num_bytes) in
  total_duration * sample_rate.

(** [uint32_t num_samples = static_cast<uint32_t>(total_duration * sample_rate)] *)
Definition num_samples (bps : float) (num_bytes : nat)
    (sample_rate_khz : float) : option Z :=
  uint32_of_double (sample_product bps num_bytes sample_rate_khz).

Section Buffer.
(** The value the loop stores in [samples[i]]. *)
Variable sample_value : nat -> Z.

(** [std::vector<int16_t> samples(num_samples)] and the loop
    [for (uint32_t i = 0; i < num_samples; i++) samples[i] = ...]. *)
Definition sine_gen_samples (bps : float) (num_bytes : nat)
    (sample_rate_khz : float) : option (list Z) :=
  match num_samples bps num_bytes sample_rate_khz with
  | Some n =>
      Some (Loops.fill sample_value (Z.to_nat n)
              (replicate (Z.to_nat n) 0%Z))
  | None => None
  end.

End Buffer.

(** [std::complex<double>] *)
Abbreviation FC := (float * float)%type.


(** [M_PI] *)
Definition M_PI : float := 0x1.921fb54442d18p+1.






End Binary64.

(** * A transform that runs on concrete windows *)

Module Walsh.



End Walsh.

(** * Order on doubles *)

Module QFacts.

Lemma Qltb_lt (x y : Q) : Qltb x y = true <-> (x < y)%Q.
Proof.
  unfold Qltb. rewrite negb_true_iff, <- not_true_iff_false, Qle_bool_iff.
  split; [apply Qnot_le_lt | apply Qlt_not_le].
Qed.

Lemma Qltb_ge (x y : Q) : Qltb x y = false <-> (y <= x)%Q.
Proof.
  unfold Qltb. rewrite negb_false_iff. apply Qle_bool_iff.
Qed.

#[global] Instance Qltb_proper : Proper (Qeq ==> Qeq ==> eq) Qltb.
Proof. intros x x' Hx y y' Hy. unfold Qltb. now rewrite Hx, Hy. Qed.

End QFacts.
Export QFacts.

Ltac qltb_facts :=
  repeat match goal with
         | H : Qltb _ _ = true |- _ => apply Qltb_lt in H
         | H : Qltb _ _ = false |- _ => apply Qltb_ge in H
         end.

(** * Properties of the classifier *)

Module ClassifierFacts.
Import Classifier.
#[local] Open Scope Q_scope.

Lemma analyzeBits_bit (freqs : list Q) (i : nat) :
  (i < 8)%nat ->
  fst (analyzeBits freqs) !!! i
  = if bit1Detected (scan_position i freqs) then 1%Z else 0%Z.
Proof.
  intros Hi. unfold analyzeBits.
  do 8 (destruct i as [|i]; [reflexivity|]). lia.
Qed.

Lemma analyzeBits_freq (freqs : list Q) (i : nat) :
  (i < 8)%nat ->
  snd (analyzeBits freqs) !!! i = closestFreq (scan_position i freqs).
Proof.
  intros Hi. unfold analyzeBits.
  do 8 (destruct i as [|i]; [reflexivity|]). lia.
Qed.

Lemma analyzeBits_length (freqs : list Q) :
  length (fst (analyzeBits freqs)) = 8%nat.
Proof. reflexivity. Qed.

Lemma assembleByte_testbit (bits : list Z) (i : nat) :
  length bits = 8%nat -> (i < 8)%nat ->
  Z.testbit (assembleByte bits) (7 - Z.of_nat i) = negb (bits !!! i =? 0)%Z.
Proof.
  intros Hlen Hi.
  do 8 (destruct bits as [|? bits]; [discriminate|]).
  destruct bits; [|discriminate]. clear Hlen.
  unfold assembleByte.
  do 8 (destruct i as [|i];
        [cbn; repeat match goal with
                     | |- context [(?b =? 0)%Z] => is_var b; destruct (b =? 0)%Z
                     end; reflexivity|]).
  lia.
Qed.

Lemma assembleByte_range (bits : list Z) :
  (0 <= assembleByte bits < 256)%Z.
Proof.
  unfold assembleByte. cbn [seq fold_left].
  repeat match goal with
         | |- context [(?b =? 0)%Z] => destruct (b =? 0)%Z
         end;
    (split; [apply Z.leb_le | apply Z.ltb_lt]; reflexivity).
Qed.

(** The bit of the returned byte at place [7 - i] is the bit the
    classifier resolved for table position [i]. *)
Lemma frequenciesToByte_testbit (freqs : list Q) (i : nat) :
  (i < 8)%nat ->
  Z.testbit (frequenciesToByte freqs) (7 - Z.of_nat i)
  = bit1Detected (scan_position i freqs).
Proof.
  intros Hi. unfold frequenciesToByte.
  rewrite assembleByte_testbit by (auto using analyzeBits_length).
  rewrite analyzeBits_bit by assumption.
  now destruct (bit1Detected _).
Qed.

(** C2 (as amended).  For every 8-entry vector [bits], the rule
    [byteValue |= bits[i] << (7 - i)] puts table position [i] at bit
    [7 - i] of the byte: position 0 is the most significant bit (bit 7),
    position 7 the least significant one (bit 0); the byte is in 0..255. *)
Theorem assembleByte_msb_first (bits : list Z) :
  length bits = 8%nat ->
  (forall i : nat, (i < 8)%nat ->
     Z.testbit (assembleByte bits) (7 - Z.of_nat i)
     = negb (bits !!! i =? 0)%Z)
  /\ Z.testbit (assembleByte bits) 7 = negb (bits !!! 0%nat =? 0)%Z
  /\ Z.testbit (assembleByte bits) 0 = negb (bits !!! 7%nat =? 0)%Z
  /\ (0 <= assembleByte bits < 256)%Z.
Proof.
  intros Hlen. repeat split.
  - intros i Hi. now apply assembleByte_testbit.
  - apply (assembleByte_testbit bits 0 Hlen). lia.
  - apply (assembleByte_testbit bits 7 Hlen). lia.
  - apply assembleByte_range.
  - apply assembleByte_range.
Qed.

Lemma assembleByte_msb_first_witness :
  Z.testbit (assembleByte [0; 1; 0; 0; 0; 0; 0; 1]%Z) 7 = false
  /\ Z.testbit (assembleByte [0; 1; 0; 0; 0; 0; 0; 1]%Z) 0 = true.
Proof.
  destruct (assembleByte_msb_first [0; 1; 0; 0; 0; 0; 0; 1]%Z eq_refl)
    as (_ & H7 & H0 & _).
  split; [exact H7 | exact H0].
Defined.

(** C2 as stated fails: a vector whose only set bit is table position 0
    is assembled to 128, whose least significant bit is clear. *)
Lemma assembleByte_position0_not_lsb :
  assembleByte [1; 0; 0; 0; 0; 0; 0; 0]%Z = 128%Z
  /\ Z.testbit (assembleByte [1; 0; 0; 0; 0; 0; 0; 0]%Z) 0
     <> negb (([1; 0; 0; 0; 0; 0; 0; 0]%Z !!! 0%nat) =? 0)%Z.
Proof. split; [reflexivity | discriminate]. Qed.

(** ** Tolerance *)

Lemma step0_reject (pair : Q * Q) (st : scan) (f : Q) :
  50 <= Qabs (f - fst pair) -> step0 pair st f = st.
Proof.
  intros Hd. unfold step0.
  now rewrite (proj2 (Qltb_ge _ _) Hd).
Qed.

Lemma step1_reject (pair : Q * Q) (st : scan) (f : Q) :
  50 <= Qabs (f - snd pair) -> step1 pair st f = st.
Proof.
  intros Hd. unfold step1.
  now rewrite (proj2 (Qltb_ge _ _) Hd).
Qed.

Lemma step0_accept (pair : Q * Q) (st : scan) (f : Q) :
  Qabs (f - fst pair) < 50 -> Qabs (f - fst pair) < minDiff st ->
  step0 pair st f = Scan true false f (Qabs (f - fst pair)).
Proof.
  intros H1 H2. unfold step0.
  now rewrite (proj2 (Qltb_lt _ _) H1), (proj2 (Qltb_lt _ _) H2).
Qed.

Lemma step1_accept (pair : Q * Q) (st : scan) (f : Q) :
  Qabs (f - snd pair) < 50 -> Qabs (f - snd pair) < minDiff st ->
  step1 pair st f = Scan false true f (Qabs (f - snd pair)).
Proof.
  intros H1 H2. unfold step1.
  now rewrite (proj2 (Qltb_lt _ _) H1), (proj2 (Qltb_lt _ _) H2).
Qed.

Lemma scan_none (pair : Q * Q) (freqs : list Q) (st : scan) :
  (forall f, In f freqs -> ~ in_tolerance pair f) ->
  fold_left (scan_step pair) freqs st = st.
Proof.
  revert st. induction freqs as [|f freqs IH]; intros st Hall; [reflexivity|].
  cbn [fold_left]. unfold scan_step.
  assert (Hf : ~ in_tolerance pair f) by (apply Hall; now left).
  rewrite step0_reject, step1_reject.
  - apply IH. intros g Hg. apply Hall. now right.
  - apply Qnot_lt_le. intros Hlt. apply Hf. now right.
  - apply Qnot_lt_le. intros Hlt. apply Hf. now left.
Qed.

Lemma scan_step_inv (pair : Q * Q) (st : scan) (f : Q) :
  scan_inv st -> scan_inv (scan_step pair st f).
Proof.
  intros Hst. unfold scan_step.
  assert (H0 : scan_inv (step0 pair st f)).
  { unfold step0.
    destruct (Qltb (Qabs (f - fst pair)) 50) eqn:E1; [|exact Hst].
    destruct (Qltb _ (minDiff st)); [|exact Hst].
    right. split; [reflexivity | now apply Qltb_lt]. }
  unfold step1.
  destruct (Qltb (Qabs (f - snd pair)) 50) eqn:E1; [|exact H0].
  destruct (Qltb _ (minDiff (step0 pair st f))); [|exact H0].
  right. split; [reflexivity | now apply Qltb_lt].
Qed.

Lemma scan_fold_inv (pair : Q * Q) (freqs : list Q) (st : scan) :
  scan_inv st -> scan_inv (fold_left (scan_step pair) freqs st).
Proof.
  revert st. induction freqs as [|f freqs IH]; intros st Hst; [exact Hst|].
  cbn [fold_left]. apply IH. now apply scan_step_inv.
Qed.

Lemma scan_step_detects (pair : Q * Q) (st : scan) (f : Q) :
  scan_inv st -> in_tolerance pair f ->
  scan_step pair st f <> scan_init.
Proof.
  intros Hst Hf Heq.
  destruct (scan_step_inv pair st f Hst) as [Hi|[Hx Hlt]].
  2:{ rewrite Heq in Hx. discriminate. }
  clear Hi. unfold scan_step in Heq.
  destruct Hst as [->|[Hx Hlt]].
  - (* first acceptance: any difference below 50 is below 1000 *)
    destruct Hf as [H0|H1].
    + rewrite step0_accept in Heq;
        [|assumption|now apply Qlt_trans with 50].
      unfold step1 in Heq.
      destruct (_ && _) in Heq; discriminate.
    + unfold step0 in Heq.
      destruct (_ && _) in Heq.
      * unfold step1 in Heq. destruct (_ && _) in Heq; discriminate.
      * rewrite step1_accept in Heq;
          [discriminate|assumption|now apply Qlt_trans with 50].
  - unfold step0, step1 in Heq.
    repeat (destruct (_ && _) in Heq; try discriminate).
    rewrite Heq in Hx. discriminate.
Qed.

Lemma scan_fold_detects (pair : Q * Q) (freqs : list Q) (st : scan) :
  scan_inv st ->
  (st <> scan_init \/ exists f, In f freqs /\ in_tolerance pair f) ->
  fold_left (scan_step pair) freqs st <> scan_init.
Proof.
  revert st. induction freqs as [|f freqs IH]; intros st Hst Hex.
  - destruct Hex as [Hne|(f & [] & _)]. exact Hne.
  - cbn [fold_left]. apply IH; [now apply scan_step_inv|].
    destruct Hex as [Hne|(g & [<-|Hg] & Htol)].
    + left. intros Heq.
      destruct Hst as [->|[Hx Hlt]]; [now apply Hne|].
      unfold scan_step, step0, step1 in Heq.
      repeat (destruct (_ && _) in Heq; try discriminate).
      rewrite Heq in Hx. discriminate.
    + left. now apply scan_step_detects.
    + right. now exists g.
Qed.

Lemma scan_position_inv (i : nat) (freqs : list Q) :
  scan_inv (scan_position i freqs).
Proof. unfold scan_position. apply scan_fold_inv. now left. Qed.

End ClassifierFacts.

(** * Properties of the array loops *)

Module ArrayLoops.
Export Loops.
Section Fill.
Context {A : Type}.

Lemma fold_left_pair {B S : Type} (f1 : A -> S -> A) (f2 : B -> S -> B)
    (l : list S) (a : A) (b : B) :
  fold_left (fun (ab : A * B) (i : S) => (f1 (fst ab) i, f2 (snd ab) i))
            l (a, b)
  = (fold_left f1 l a, fold_left f2 l b).
Proof.
  revert a b. induction l as [|x l IH]; intros a b; [reflexivity|].
  cbn [fold_left fst snd]. apply IH.
Qed.

Lemma fill_S (g : nat -> A) (n : nat) (l : list A) :
  fill g (S n) l = <[n := g n]> (fill g n l).
Proof. unfold fill. now rewrite seq_S, fold_left_app. Qed.

Lemma fill_length (g : nat -> A) (n : nat) (l : list A) :
  length (fill g n l) = length l.
Proof.
  induction n as [|n IH]; [reflexivity|].
  now rewrite fill_S, length_insert.
Qed.


Lemma fill_lookup_ge (g : nat -> A) (n : nat) (l : list A) (j : nat) :
  (n <= j)%nat -> fill g n l !! j = l !! j.
Proof.
  induction n as [|n IH]; intros Hj; [reflexivity|].
  rewrite fill_S, list_lookup_insert_ne by lia. apply IH. lia.
Qed.

Lemma fill2_S (g1 g2 : nat -> A) (h n : nat) (l : list A) :
  fill2 g1 g2 h (S n) l
  = <[(n + h)%nat := g2 n]> (<[n := g1 n]> (fill2 g1 g2 h n l)).
Proof. unfold fill2. now rewrite seq_S, fold_left_app. Qed.

Lemma fill2_length (g1 g2 : nat -> A) (h n : nat) (l : list A) :
  length (fill2 g1 g2 h n l) = length l.
Proof.
  induction n as [|n IH]; [reflexivity|].
  now rewrite fill2_S, !length_insert.
Qed.

Lemma fill2_lookup_low (g1 g2 : nat -> A) (h n : nat) (l : list A) (j : nat) :
  (n <= h)%nat -> (j < n)%nat -> (j < length l)%nat ->
  fill2 g1 g2 h n l !! j = Some (g1 j).
Proof.
  induction n as [|n IH]; intros Hn Hj Hl; [lia|].
  rewrite fill2_S, list_lookup_insert_ne by lia.
  destruct (decide (j = n)) as [->|Hne].
  - apply list_lookup_insert_eq. now rewrite fill2_length.
  - rewrite list_lookup_insert_ne by congruence. apply IH; lia.
Qed.

Lemma fill2_lookup_high (g1 g2 : nat -> A) (h n : nat) (l : list A) (j : nat) :
  (n <= h)%nat -> (j < n)%nat -> (j + h < length l)%nat ->
  fill2 g1 g2 h n l !! (j + h)%nat = Some (g2 j).
Proof.
  induction n as [|n IH]; intros Hn Hj Hl; [lia|].
  rewrite fill2_S. destruct (decide (j = n)) as [->|Hne].
  - apply list_lookup_insert_eq. now rewrite length_insert, fill2_length.
  - rewrite !list_lookup_insert_ne by lia. apply IH; lia.
Qed.

Lemma fill2_lookup_rest (g1 g2 : nat -> A) (h n : nat) (l : list A) (j : nat) :
  (n <= h)%nat -> (h + n <= j)%nat ->
  fill2 g1 g2 h n l !! j = l !! j.
Proof.
  induction n as [|n IH]; intros Hn Hj; [reflexivity|].
  rewrite fill2_S, !list_lookup_insert_ne by lia. apply IH; lia.
Qed.

End Fill.
End ArrayLoops.

(** * Properties of the transform *)

Module TransformFacts.
Import Transform ArrayLoops.

Section Generic.
Context {C : Type} `{ComplexOps C}.

Lemma split_loop_eq (data : list C) (N : nat) :
  split_loop data N
  = (fill (fun i => data !!! (i * 2)%nat) (N / 2) (replicate (N / 2) czero),
     fill (fun i => data !!! (i * 2 + 1)%nat) (N / 2)
          (replicate (N / 2) czero)).
Proof.
  unfold split_loop, fill.
  apply (fold_left_pair
           (fun (acc : list C) (i : nat) => <[i := data !!! (i * 2)%nat]> acc)
           (fun (acc : list C) (i : nat) =>
              <[i := data !!! (i * 2 + 1)%nat]> acc)).
Qed.

Lemma split_loop_length (data : list C) (N : nat) :
  length (fst (split_loop data N)) = (N / 2)%nat
  /\ length (snd (split_loop data N)) = (N / 2)%nat.
Proof.
  rewrite split_loop_eq. cbn [fst snd].
  now rewrite !fill_length, length_replicate.
Qed.



Lemma combine_loop_eq (even odd data : list C) (N : nat) :
  combine_loop even odd data N
  = fill2 (fun k => cadd (even !!! k) (cmul (twiddle k N) (odd !!! k)))
          (fun k => csub (even !!! k) (cmul (twiddle k N) (odd !!! k)))
          (N / 2) (N / 2) data.
Proof. reflexivity. Qed.

Lemma combine_loop_length (even odd data : list C) (N : nat) :
  length (combine_loop even odd data N) = length data.
Proof. rewrite combine_loop_eq. apply fill2_length. Qed.

Lemma combine_loop_low (even odd data : list C) (k : nat) :
  (k < length data / 2)%nat ->
  combine_loop even odd data (length data) !!! k
  = cadd (even !!! k) (cmul (twiddle k (length data)) (odd !!! k)).
Proof.
  intros Hk. rewrite combine_loop_eq.
  apply list_lookup_total_correct.
  apply (fill2_lookup_low
           (fun k => cadd (even !!! k)
                          (cmul (twiddle k (length data)) (odd !!! k))));
    lia.
Qed.

Lemma combine_loop_high (even odd data : list C) (k : nat) :
  (k < length data / 2)%nat ->
  combine_loop even odd data (length data) !!! (k + length data / 2)%nat
  = csub (even !!! k) (cmul (twiddle k (length data)) (odd !!! k)).
Proof.
  intros Hk. rewrite combine_loop_eq.
  apply list_lookup_total_correct.
  apply (fill2_lookup_high
           (fun k => cadd (even !!! k)
                          (cmul (twiddle k (length data)) (odd !!! k)))
           (fun k => csub (even !!! k)
                          (cmul (twiddle k (length data)) (odd !!! k))));
    lia.
Qed.

(** An odd length leaves the last element of [data] as it was. *)
Lemma combine_loop_rest (even odd data : list C) (k : nat) :
  (length data / 2 + length data / 2 <= k)%nat ->
  combine_loop even odd data (length data) !! k = data !! k.
Proof.
  intros Hk. rewrite combine_loop_eq. apply fill2_lookup_rest; lia.
Qed.

(** ** Termination and length *)

Lemma fft_fuel_total (fuel : nat) (data : list C) :
  (length data < 2 ^ S fuel)%nat ->
  exists out, fft_fuel fuel data = Some out /\ length out = length data.
Proof.
  revert data. induction fuel as [|fuel IH]; intros data Hlen.
  - cbn in Hlen. cbn [fft_fuel].
    destruct (Nat.leb_spec (length data) 1); [|lia]. now exists data.
  - cbn [fft_fuel].
    destruct (Nat.leb_spec (length data) 1); [now exists data|].
    destruct (split_loop_length data (length data)) as [He Ho].
    assert (Hhalf : (length data / 2 < 2 ^ S fuel)%nat).
    { apply Nat.Div0.div_lt_upper_bound.
      change (2 ^ S (S fuel))%nat with (2 * 2 ^ S fuel)%nat in Hlen. lia. }
    destruct (IH (fst (split_loop data (length data)))) as (even & -> & _);
      [now rewrite He|].
    destruct (IH (snd (split_loop data (length data)))) as (odd & -> & _);
      [now rewrite Ho|].
    eexists. split; [reflexivity|]. apply combine_loop_length.
Qed.

Lemma fft_fuel_mono (fuel fuel' : nat) (data out : list C) :
  fft_fuel fuel data = Some out -> (fuel <= fuel')%nat ->
  fft_fuel fuel' data = Some out.
Proof.
  revert fuel' data out.
  induction fuel as [|fuel IH]; intros fuel' data out Hrun Hle.
  - cbn [fft_fuel] in Hrun.
    destruct (length data <=? 1)%nat eqn:E; [|discriminate].
    destruct fuel'; cbn [fft_fuel]; now rewrite E.
  - destruct fuel' as [|fuel']; [lia|].
    cbn [fft_fuel] in *.
    destruct (length data <=? 1)%nat; [exact Hrun|].
    destruct (fft_fuel fuel (fst _)) as [even|] eqn:Ee; [|discriminate].
    destruct (fft_fuel fuel (snd _)) as [odd|] eqn:Eo; [|discriminate].
    rewrite (IH fuel' _ _ Ee), (IH fuel' _ _ Eo) by lia. exact Hrun.
Qed.

Lemma fft_fuel_log2 (data : list C) :
  exists out,
    fft_fuel (Nat.log2 (length data)) data = Some out
    /\ length out = length data.
Proof.
  apply fft_fuel_total.
  destruct (length data) as [|n] eqn:E.
  - cbn. lia.
  - apply Nat.log2_spec. lia.
Qed.

Lemma fft_fuel_fft (data : list C) :
  fft_fuel (length data) data = Some (fft data).
Proof.
  unfold fft.
  destruct (fft_fuel_log2 data) as (out & Hout & _).
  rewrite (fft_fuel_mono _ (length data) _ _ Hout); [reflexivity|].
  destruct (length data) as [|n]; [cbn; lia|].
  apply Nat.log2_le_lin. lia.
Qed.


Lemma fft_base (data : list C) :
  (length data <= 1)%nat -> fft data = data.
Proof.
  intros Hle. unfold fft.
  destruct (length data) as [|[|n]] eqn:E; try lia;
    cbn [fft_fuel]; now rewrite E.
Qed.

(** The recursive equation of [fft]. *)
Lemma fft_step (data : list C) :
  (1 < length data)%nat ->
  fft data
  = combine_loop (fft (fst (split_loop data (length data))))
                 (fft (snd (split_loop data (length data))))
                 data (length data).
Proof.
  intros Hlen.
  pose proof (fft_fuel_fft data) as Hfft.
  destruct (length data) as [|n] eqn:E; [lia|].
  cbn [fft_fuel] in Hfft. rewrite E in Hfft.
  destruct (Nat.leb_spec (S n) 1); [lia|].
  destruct (fft_fuel n (fst _)) as [even|] eqn:Ee; [|discriminate].
  destruct (fft_fuel n (snd _)) as [odd|] eqn:Eo; [|discriminate].
  injection Hfft as <-.
  destruct (split_loop_length data (S n)) as [He Ho].
  pose proof (fft_fuel_fft (fst (split_loop data (S n)))) as He'.
  pose proof (fft_fuel_fft (snd (split_loop data (S n)))) as Ho'.
  rewrite He in He'. rewrite Ho in Ho'.
  assert (Hh : (S n / 2 <= n)%nat).
  { apply Nat.Div0.div_le_upper_bound. lia. }
  rewrite (fft_fuel_mono _ n _ _ He' Hh) in Ee.
  rewrite (fft_fuel_mono _ n _ _ Ho' Hh) in Eo.
  now injection Ee as <-; injection Eo as <-.
Qed.

End Generic.

(** ** Real input: the conjugate-mirror property *)

Section RealInput.
#[local] Open Scope R_scope.







End RealInput.

(** C10.  The transform terminates on every finite input, whatever its
    length: a recursion depth of [log2 N] is enough for it to return (and
    any larger bound gives the same result, the one of [fft]); each of the
    two recursive calls is made on a sequence of length [N / 2] (integer
    division), and [N / 2 < N] whenever [N > 1]. *)
Theorem fft_terminates (C : Type) (ops : ComplexOps C) (data : list C) :
  (exists out : list C,
     fft_fuel (Nat.log2 (length data)) data = Some out
     /\ length out = length data)
  /\ (forall fuel : nat, (Nat.log2 (length data) <= fuel)%nat ->
        fft_fuel fuel data = Some (fft data))
  /\ length (fst (split_loop data (length data))) = (length data / 2)%nat
  /\ length (snd (split_loop data (length data))) = (length data / 2)%nat
  /\ ((1 < length data)%nat -> (length data / 2 < length data)%nat).
Proof.
  split; [apply fft_fuel_log2|].
  split.
  - intros fuel Hfuel.
    destruct (fft_fuel_log2 data) as (out & Hout & _).
    assert (Hle : (Nat.log2 (length data) <= length data)%nat).
    { destruct (length data) as [|n]; [cbn; lia|].
      apply Nat.log2_le_lin. lia. }
    pose proof (fft_fuel_mono _ _ _ _ Hout Hle) as H1.
    rewrite fft_fuel_fft in H1. injection H1 as ->.
    exact (fft_fuel_mono _ _ _ _ Hout Hfuel).
  - split; [apply split_loop_length|].
    split; [apply split_loop_length|]. lia.
Qed.

Lemma fft_terminates_witness :
  @fft_fuel _ QC4_ops 1 [(1, 0); (2, 0); (3, 0)]%Q
  = Some (@fft _ QC4_ops [(1, 0); (2, 0); (3, 0)]%Q)
  /\ (3 / 2 < 3)%nat.
Proof.
  destruct (fft_terminates _ QC4_ops [(1, 0); (2, 0); (3, 0)]%Q)
    as (_ & Hfuel & _ & _ & Hlt).
  split.
  - apply Hfuel. cbn. lia.
  - apply Hlt. cbn. lia.
Defined.



End TransformFacts.

(** * Properties of the peak extractor *)

Module PeaksFacts.
Import Peaks.
#[local] Open Scope Q_scope.

Lemma pair_lt_spec (a b : Q * nat) :
  pair_lt a b = true
  <-> fst a < fst b \/ (fst a == fst b /\ (snd a < snd b)%nat).
Proof.
  unfold pair_lt.
  rewrite orb_true_iff, andb_true_iff, negb_true_iff, Qltb_lt, Qltb_ge,
    Nat.ltb_lt.
  split.
  - intros [Hlt|[Hle Hn]]; [now left|].
    destruct (Qlt_le_dec (fst a) (fst b)) as [Hlt|Hge]; [now left|].
    right. split; [now apply Qle_antisym | exact Hn].
  - intros [Hlt|[Heq Hn]]; [now left|].
    right. split; [rewrite Heq; apply Qle_refl | exact Hn].
Qed.

Lemma greater_spec (a b : Q * nat) : greater a b = true <-> gt_pair a b.
Proof.
  unfold greater, gt_pair. rewrite pair_lt_spec.
  split; (intros [Hlt|[Heq Hn]]; [now left | right; split; [now symmetry | exact Hn]]).
Qed.

Lemma gt_pair_asym (a b : Q * nat) : gt_pair a b -> gt_pair b a -> False.
Proof.
  unfold gt_pair. intros [H1|[H1 H1']] [H2|[H2 H2']]; try Lqa.lra. lia.
Qed.

Lemma gt_pair_trans (a b c : Q * nat) :
  gt_pair a b -> gt_pair b c -> gt_pair a c.
Proof.
  unfold gt_pair. intros [H1|[H1 H1']] [H2|[H2 H2']];
    try (left; Lqa.lra).
  right. split; [Lqa.lra | lia].
Qed.

(** Two pairs with different bins are ordered one way or the other. *)
Lemma gt_pair_total (a b : Q * nat) :
  snd a <> snd b -> gt_pair a b \/ gt_pair b a.
Proof.
  intros Hne. unfold gt_pair.
  destruct (Q_dec (fst a) (fst b)) as [[Hlt|Hgt]|Heq].
  - right. now left.
  - left. now left.
  - destruct (Nat.lt_trichotomy (snd a) (snd b)) as [H|[H|H]];
      [right; right | contradiction | left; right];
      (split; [auto with qarith | exact H]).
Qed.

Lemma gt_ge_trans (a b c : Q * nat) :
  gt_pair a b -> ge_pair b c -> ge_pair a c.
Proof.
  unfold ge_pair, gt_pair.
  intros [H1|[H1 H1']] Hbc [H2|[H2 H2']]; apply Hbc;
    try (left; Lqa.lra).
  right. split; [Lqa.lra | lia].
Qed.

Lemma gt_ge (a b : Q * nat) : gt_pair a b -> ge_pair a b.
Proof. intros H1 H2. exact (gt_pair_asym _ _ H1 H2). Qed.

Lemma insert_desc_perm (x : Q * nat) (l : list (Q * nat)) :
  Permutation (insert_desc x l) (x :: l).
Proof.
  induction l as [|y l IH]; cbn [insert_desc]; [reflexivity|].
  destruct (greater x y); [reflexivity|].
  rewrite IH. apply perm_swap.
Qed.

Lemma sort_desc_perm (l : list (Q * nat)) : Permutation (sort_desc l) l.
Proof.
  induction l as [|x l IH]; cbn [sort_desc fold_right]; [reflexivity|].
  fold (sort_desc l). rewrite insert_desc_perm. now constructor.
Qed.

Lemma insert_desc_sorted (x : Q * nat) (l : list (Q * nat)) :
  StronglySorted ge_pair l -> StronglySorted ge_pair (insert_desc x l).
Proof.
  induction l as [|y l IH]; intros Hs; cbn [insert_desc].
  - repeat constructor.
  - apply StronglySorted_inv in Hs as [Hs Hy].
    destruct (greater x y) eqn:E.
    + apply greater_spec in E. constructor; [now constructor|].
      constructor; [now apply gt_ge|].
      eapply Forall_impl; [exact Hy|].
      intros z Hz. exact (gt_ge_trans _ _ _ E Hz).
    + constructor; [now apply IH|].
      apply (Permutation_Forall (Permutation_sym (insert_desc_perm x l))).
      constructor; [|exact Hy].
      intros Hgt. apply greater_spec in Hgt. congruence.
Qed.

Lemma sort_desc_sorted (l : list (Q * nat)) :
  StronglySorted ge_pair (sort_desc l).
Proof.
  induction l as [|x l IH]; cbn [sort_desc fold_right]; [constructor|].
  now apply insert_desc_sorted.
Qed.

(** With pairwise different bins the order is strict. *)
Lemma sorted_strict (l : list (Q * nat)) :
  List.NoDup (map snd l) ->
  StronglySorted ge_pair l -> StronglySorted gt_pair l.
Proof.
  induction l as [|x l IH]; intros Hnd Hs; [constructor|].
  cbn [map] in Hnd. apply NoDup_cons_iff in Hnd as [Hx Hnd].
  apply StronglySorted_inv in Hs as [Hs Hall].
  constructor; [now apply IH|].
  rewrite List.Forall_forall in *. intros y Hy.
  destruct (gt_pair_total x y) as [H|H]; [|exact H|].
  - intros Heq. apply Hx. rewrite Heq. now apply in_map.
  - exfalso. exact (Hall y Hy H).
Qed.

(** A sequence has a single arrangement in strictly descending order, so
    any sorting algorithm returns the result of [sort_desc]. *)
Lemma sorted_unique (l1 l2 : list (Q * nat)) :
  StronglySorted gt_pair l1 -> StronglySorted gt_pair l2 ->
  Permutation l1 l2 -> l1 = l2.
Proof.
  revert l2. induction l1 as [|a l1 IH]; intros l2 H1 H2 Hp.
  - now apply Permutation_nil in Hp.
  - destruct l2 as [|b l2];
      [now apply Permutation_sym, Permutation_nil in Hp|].
    apply StronglySorted_inv in H1 as [H1 Ha].
    apply StronglySorted_inv in H2 as [H2 Hb].
    rewrite List.Forall_forall in Ha, Hb.
    assert (Hab : a = b).
    { assert (Hin1 : In a (b :: l2))
        by (apply (Permutation_in _ Hp); now left).
      assert (Hin2 : In b (a :: l1))
        by (apply (Permutation_in _ (Permutation_sym Hp)); now left).
      destruct Hin1 as [Heq|Hin1]; [now symmetry|].
      destruct Hin2 as [Heq|Hin2]; [exact Heq|].
      exfalso. exact (gt_pair_asym _ _ (Ha _ Hin2) (Hb _ Hin1)). }
    subst b. f_equal. apply IH; try assumption.
    now apply Permutation_cons_inv in Hp.
Qed.

Lemma sorted_app_inv (l1 l2 : list (Q * nat)) :
  StronglySorted gt_pair (l1 ++ l2) ->
  StronglySorted gt_pair l1
  /\ forall a b, In a l1 -> In b l2 -> gt_pair a b.
Proof.
  induction l1 as [|x l1 IH]; cbn [app]; intros Hs.
  - split; [constructor | intros a b []].
  - apply StronglySorted_inv in Hs as [Hs Hx].
    destruct (IH Hs) as [Hs1 Hcross].
    rewrite List.Forall_forall in Hx.
    split.
    + constructor; [exact Hs1|].
      rewrite List.Forall_forall. intros y Hy. apply Hx.
      apply in_or_app. now left.
    + intros a b [<-|Ha] Hb.
      * apply Hx. apply in_or_app. now right.
      * now apply Hcross.
Qed.

Section Extract.
Context {C : Type} `{Inhabited C}.
Variable cabs : C -> Q.

Lemma magnitudes_bins (fftResult : list C) (N : nat) :
  map snd (magnitudes cabs fftResult N) = seq 1 (N / 2 - 1).
Proof.
  unfold magnitudes. rewrite map_map. cbn [snd]. apply map_id.
Qed.

Lemma sorted_magnitudes (fftResult : list C) (N : nat) :
  StronglySorted gt_pair (sort_desc (magnitudes cabs fftResult N)).
Proof.
  apply sorted_strict; [|apply sort_desc_sorted].
  apply (Permutation_NoDup
           (l := map snd (magnitudes cabs fftResult N))).
  - apply Permutation_map, Permutation_sym, sort_desc_perm.
  - rewrite magnitudes_bins. apply seq_NoDup.
Qed.

End Extract.

(** C5.  The extractor ranks exactly the bins 1 .. N/2 - 1 (bin 0 left
    out), each with the magnitude of its spectrum entry; it returns
    [bin * sampleRate / N] for the retained bins; the retained (magnitude,
    bin) pairs are in strictly descending order of magnitude, equal
    magnitudes in descending order of bin index, and every pair that is
    not retained ranks below every retained one; the output has
    [min 8 (N/2 - 1)] entries. *)
Theorem getTop8Frequencies_spec (C : Type) (inh : Inhabited C)
    (cabs : C -> Q) (fftResult : list C) (N : nat) (sampleRate : Q) :
  getTop8Frequencies cabs fftResult N sampleRate
  = map (fun p => inject_Z (Z.of_nat (snd p)) * sampleRate
                  / inject_Z (Z.of_nat N))
        (topPeaks cabs fftResult N)
  /\ length (getTop8Frequencies cabs fftResult N sampleRate)
     = Nat.min 8 (N / 2 - 1)
  /\ StronglySorted gt_pair (topPeaks cabs fftResult N)
  /\ exists rest : list (Q * nat),
       Permutation (topPeaks cabs fftResult N ++ rest)
                   (map (fun i => (cabs (fftResult !!! i), i))
                        (seq 1 (N / 2 - 1)))
       /\ forall a b, In a (topPeaks cabs fftResult N) -> In b rest ->
                      gt_pair a b.
Proof.
  pose proof (sorted_magnitudes cabs fftResult N) as Hs.
  rewrite <- (take_drop 8 (sort_desc (magnitudes cabs fftResult N))) in Hs.
  apply sorted_app_inv in Hs as [Htop Hcross].
  split; [reflexivity|]. split; [|split; [exact Htop|]].
  - unfold getTop8Frequencies, topPeaks.
    rewrite length_map, length_take.
    rewrite (Permutation_length (sort_desc_perm _)).
    unfold magnitudes. now rewrite length_map, length_seq.
  - exists (drop 8 (sort_desc (magnitudes cabs fftResult N))).
    split; [|exact Hcross].
    unfold topPeaks. rewrite take_drop. apply sort_desc_perm.
Qed.

Lemma getTop8Frequencies_spec_witness :
  length (getTop8Frequencies Qabs [0; 1; 3; 3; 2; 5; 7; 7; 7; 7; 7; 7] 12 44100)
  = 5%nat
  /\ StronglySorted gt_pair
       (topPeaks Qabs [0; 1; 3; 3; 2; 5; 7; 7; 7; 7; 7; 7] 12).
Proof.
  destruct (getTop8Frequencies_spec Q _ Qabs
              [0; 1; 3; 3; 2; 5; 7; 7; 7; 7; 7; 7] 12%nat 44100)
    as (_ & Hlen & Hsorted & _).
  split; [exact Hlen | exact Hsorted].
Defined.

(** Bins 2 and 3 have the same magnitude: bin 3 is returned first. *)
Example getTop8Frequencies_tie :
  topPeaks Qabs [0; 1; 3; 3; 2; 5; 7; 7; 7; 7; 7; 7] 12
  = [(5, 5%nat); (3, 3%nat); (3, 2%nat); (2, 4%nat); (1, 1%nat)].
Proof. vm_compute. reflexivity. Qed.

End PeaksFacts.

(** * Properties of the session loop *)

Module SessionFacts.
Import Session.

(** ** Zero padding and down-mix *)

Lemma zero_fill_length (n : nat) (buf : list Q) :
  length (zero_fill n buf) = length buf.
Proof.
  unfold zero_fill. rewrite length_app, length_take, length_replicate. lia.
Qed.

Lemma zero_fill_lookup (n : nat) (buf : list Q) (j : nat) :
  (j < length buf)%nat ->
  zero_fill n buf !!! j = if (j <? n)%nat then buf !!! j else 0%Q.
Proof.
  intros Hj. unfold zero_fill.
  destruct (Nat.ltb_spec j n) as [Hlt|Hge].
  - rewrite lookup_total_app_l by (rewrite length_take; lia).
    now rewrite lookup_total_take_lt by lia.
  - rewrite lookup_total_app_r by (rewrite length_take; lia).
    apply lookup_total_replicate_2. rewrite length_take. lia.
Qed.

Section Stereo.
Lemma frame_length (buf : list Q) (i : nat) :
  length (downmix_frame 2 buf i) = length buf.
Proof.
  unfold downmix_frame. cbn [seq fold_left].
  now rewrite !length_insert.
Qed.

Lemma frame_other (buf : list Q) (i j : nat) :
  i <> j -> downmix_frame 2 buf i !!! j = buf !!! j.
Proof.
  intros Hne. unfold downmix_frame. cbn [seq fold_left].
  now rewrite !list_lookup_total_insert_ne by assumption.
Qed.

(** The first frame: [buffer[0]] is cleared before it is read as the
    sample of channel 0. *)
Lemma frame_first (buf : list Q) :
  (1 < length buf)%nat ->
  downmix_frame 2 buf 0 !!! 0%nat = ((0 + 0 + buf !!! 1%nat) / 2)%Q.
Proof.
  intros Hlen. unfold downmix_frame. cbn [seq fold_left].
  cbn [Nat.mul Nat.add].
  repeat (rewrite ?list_lookup_total_insert_eq,
            ?list_lookup_total_insert_ne
            by (rewrite ?length_insert; lia)).
  reflexivity.
Qed.

(** The other frames: the average of the two interleaved samples. *)
Lemma frame_self (buf : list Q) (i : nat) :
  (1 <= i)%nat -> (i < length buf)%nat ->
  downmix_frame 2 buf i !!! i
  = ((0 + buf !!! (i * 2)%nat + buf !!! (i * 2 + 1)%nat) / 2)%Q.
Proof.
  intros Hi Hlen. unfold downmix_frame. cbn [seq fold_left].
  rewrite Nat.add_0_r.
  repeat (rewrite ?list_lookup_total_insert_eq,
            ?list_lookup_total_insert_ne
            by (rewrite ?length_insert; lia)).
  reflexivity.
Qed.

Lemma downmix2_S (n : nat) (buf : list Q) :
  downmix 2 (S n) buf = downmix_frame 2 (downmix 2 n buf) n.
Proof.
  unfold downmix. cbn [Nat.ltb Nat.leb].
  now rewrite seq_S, fold_left_app.
Qed.

Lemma downmix2_length (n : nat) (buf : list Q) :
  length (downmix 2 n buf) = length buf.
Proof.
  induction n as [|n IH]; [reflexivity|].
  now rewrite downmix2_S, frame_length.
Qed.

(** Frames not yet processed are still as they were read. *)
Lemma downmix2_untouched (n : nat) (buf : list Q) (j : nat) :
  (n <= j)%nat -> downmix 2 n buf !!! j = buf !!! j.
Proof.
  induction n as [|n IH]; intros Hj; [reflexivity|].
  rewrite downmix2_S, frame_other by lia. apply IH. lia.
Qed.

Lemma downmix2_first (n : nat) (buf : list Q) :
  (0 < n)%nat -> (1 < length buf)%nat ->
  downmix 2 n buf !!! 0%nat = ((0 + 0 + buf !!! 1%nat) / 2)%Q.
Proof.
  induction n as [|n IH]; intros Hn Hlen; [lia|].
  rewrite downmix2_S. destruct n as [|n].
  - now rewrite frame_first.
  - rewrite frame_other by lia. apply IH; lia.
Qed.

Lemma downmix2_frame (n : nat) (buf : list Q) (i : nat) :
  (1 <= i < n)%nat -> (i < length buf)%nat ->
  downmix 2 n buf !!! i
  = ((0 + buf !!! (i * 2)%nat + buf !!! (i * 2 + 1)%nat) / 2)%Q.
Proof.
  induction n as [|n IH]; intros Hi Hlen; [lia|].
  rewrite downmix2_S. destruct (decide (i = n)) as [->|Hne].
  - rewrite frame_self by (rewrite ?downmix2_length; lia).
    now rewrite !downmix2_untouched by lia.
  - rewrite frame_other by congruence. apply IH; lia.
Qed.

(** Both channels carry the signal [a]: what the loop leaves at sample
    index [i] after a read of [n] frames into a buffer of
    [2 * CHUNK_SIZE] entries. *)
Lemma downmix2_identical (a : nat -> Q) (n : nat) (buf : list Q) :
  (2 * n <= length buf)%nat ->
  (forall i, (i < n)%nat ->
     buf !!! (i * 2)%nat = a i /\ buf !!! (i * 2 + 1)%nat = a i) ->
  let mono := downmix 2 n (zero_fill n buf) in
  ((2 <= n)%nat -> mono !!! 0%nat = ((0 + 0 + a 0%nat) / 2)%Q)
  /\ (forall i, (1 <= i)%nat -> (i * 2 + 1 < n)%nat ->
        mono !!! i = ((0 + a i + a i) / 2)%Q)
  /\ (forall i, (i < n)%nat -> (n <= i * 2)%nat ->
        mono !!! i = ((0 + 0 + 0) / 2)%Q).
Proof.
  intros Hlen Ha mono. subst mono. repeat apply conj.
  - intros Hn. rewrite downmix2_first by (rewrite ?zero_fill_length; lia).
    rewrite zero_fill_lookup by lia.
    destruct (Nat.ltb_spec 1 n); [|lia].
    destruct (Ha 0%nat ltac:(lia)) as [_ H1].
    change (0 * 2 + 1)%nat with 1%nat in H1. now rewrite H1.
  - intros i Hi Hin.
    rewrite downmix2_frame by (rewrite ?zero_fill_length; lia).
    rewrite !zero_fill_lookup by lia.
    destruct (Nat.ltb_spec (i * 2) n); [|lia].
    destruct (Nat.ltb_spec (i * 2 + 1) n); [|lia].
    destruct (Ha i ltac:(lia)) as [-> ->]. reflexivity.
  - intros i Hi Hin.
    destruct i as [|i]; [lia|].
    rewrite downmix2_frame by (rewrite ?zero_fill_length; lia).
    rewrite !zero_fill_lookup by lia.
    destruct (Nat.ltb_spec (S i * 2) n); [lia|].
    destruct (Nat.ltb_spec (S i * 2 + 1) n); [lia|].
    reflexivity.
Qed.

(** Both channels carry the constant 1/2. *)
Lemma normalize_constant_half (n : nat) (buf : list Q) (k : nat) :
  (4 <= n)%nat -> length buf = (n * 2)%nat ->
  (forall j, (j < n * 2)%nat -> buf !!! j = 1 # 2) ->
  (k < n)%nat -> (n <= k * 2)%nat ->
  normalize_window 2 n buf !!! 0%nat == 1 # 4
  /\ normalize_window 2 n buf !!! 1%nat == 1 # 2
  /\ normalize_window 2 n buf !!! k == 0
  /\ ~ normalize_window 2 n buf !!! 0%nat == 1 # 2.
Proof.
  intros Hn Hlen Hbuf Hk Hkn.
  destruct (downmix2_identical (fun _ => 1 # 2) n buf) as (H0 & Hmid & Hhigh).
  { lia. }
  { intros i Hi. split; apply Hbuf; lia. }
  unfold normalize_window.
  rewrite H0, (Hmid 1%nat), (Hhigh k) by lia.
  repeat split; try reflexivity. discriminate.
Qed.

End Stereo.

(** A window of 4 frames on two channels, both carrying 1, 2, 3, 4. *)
Example normalize_small_window :
  normalize_window 2 4 [1; 1; 2; 2; 3; 3; 4; 4]%Q
  = [(0 + 0 + 1) / 2; (0 + 2 + 2) / 2; (0 + 0 + 0) / 2; (0 + 0 + 0) / 2;
     0; 0; 0; 0]%Q.
Proof. reflexivity. Qed.

Lemma half_scale_buffer_lookup (j : nat) :
  (j < CHUNK_SIZE * 2)%nat -> half_scale_buffer !!! j = 1 # 2.
Proof.
  intros Hj. unfold half_scale_buffer, store_read, half_scale_stereo.
  cbn [samples].
  rewrite lookup_total_app_l by (rewrite length_replicate; exact Hj).
  now apply lookup_total_replicate_2.
Qed.

Lemma half_scale_buffer_length :
  length half_scale_buffer = (CHUNK_SIZE * 2)%nat.
Proof.
  unfold half_scale_buffer, store_read, half_scale_stereo. cbn [samples].
  rewrite length_app, length_drop, !length_replicate. lia.
Qed.

Lemma CHUNK_SIZE_eq : Z.of_nat CHUNK_SIZE = 44100%Z.
Proof. reflexivity. Qed.

Lemma MIN_SAMPLES_eq : Z.of_nat MIN_SAMPLES = 44000%Z.
Proof. reflexivity. Qed.

(** C4 (the code departs from it).  A full window of a two-channel source
    whose channels both carry the constant 1/2: the down-mixed value is
    1/4 at sample index 0 (the slot is cleared before it is read as the
    channel-0 sample), 1/2 at index 1, and 0 at index 22050 (the zero
    padding starts at entry [readSamples] of the interleaved buffer, which
    holds [2 * readSamples] entries). *)
Theorem downmix_identical_channels_diverges :
  normalize_window 2 CHUNK_SIZE half_scale_buffer !!! 0%nat == 1 # 4
  /\ normalize_window 2 CHUNK_SIZE half_scale_buffer !!! 1%nat == 1 # 2
  /\ normalize_window 2 CHUNK_SIZE half_scale_buffer !!! (Z.to_nat 22050) == 0
  /\ ~ normalize_window 2 CHUNK_SIZE half_scale_buffer !!! 0%nat == 1 # 2.
Proof.
  pose proof CHUNK_SIZE_eq as Hc.
  apply (normalize_constant_half CHUNK_SIZE half_scale_buffer).
  - lia.
  - apply half_scale_buffer_length.
  - apply half_scale_buffer_lookup.
  - lia.
  - lia.
Qed.

(** ** The loop *)

Section Loop.
Context {C : Type} `{Transform.ComplexOps C}.
Variable cabs : C -> Q.
Variable complex_of_real : Q -> C.
Variables chunk_size min_samples numChannels : nat.
Variable sampleRate : Z.

Lemma cycle_short (st : state) (rd : read_result) :
  (readSamples rd < min_samples)%nat ->
  asciiMessage (cycle cabs complex_of_real chunk_size min_samples numChannels
                       sampleRate st rd)
  = asciiMessage st.
Proof.
  intros Hlt. unfold cycle.
  now rewrite (proj2 (Nat.ltb_lt _ _) Hlt).
Qed.

Lemma cycle_full (st : state) (rd : read_result) :
  (min_samples <= readSamples rd)%nat ->
  asciiMessage (cycle cabs complex_of_real chunk_size min_samples numChannels
                      sampleRate st rd)
  = asciiMessage st
    ++ [char_of_int
          (decode_window cabs complex_of_real chunk_size sampleRate
             (normalize_window numChannels (readSamples rd)
                (store_read rd (buffer st))))].
Proof.
  intros Hge. unfold cycle.
  now rewrite (proj2 (Nat.ltb_ge _ _) Hge).
Qed.

Lemma run_append (reads : list read_result) (st : state) :
  exists suffix : list Z,
    asciiMessage (run cabs complex_of_real chunk_size min_samples
                      numChannels sampleRate reads st)
    = asciiMessage st ++ suffix
    /\ length suffix = decoded_windows min_samples reads.
Proof.
  revert st. induction reads as [|rd reads IH]; intros st.
  - exists []. now rewrite app_nil_r.
  - cbn [run decoded_windows].
    destruct (0 <? readSamples rd)%nat;
      [|exists []; now rewrite app_nil_r].
    destruct (IH (cycle cabs complex_of_real chunk_size min_samples
                        numChannels sampleRate st rd))
      as (suffix & Hrun & Hlen).
    rewrite Hrun.
    destruct (Nat.ltb_spec (readSamples rd) min_samples) as [Hlt|Hge].
    + rewrite cycle_short by assumption. now exists suffix.
    + rewrite (cycle_full st rd Hge).
      eexists (_ :: suffix). rewrite <- List.app_assoc.
      split; [reflexivity|]. cbn. now rewrite Hlen.
Qed.

End Loop.

(** C6.  In one decode cycle, a read of fewer than 44000 frames leaves the
    message as it was, whatever the samples; a read of at least 44000
    frames appends exactly one byte, the one decoded from the normalized
    window.  Over a whole run the message only grows at its end: the final
    message is the initial one followed by one byte per decoded window. *)
Theorem session_tail_drop_append_only (C : Type)
    (ops : Transform.ComplexOps C) (cabs : C -> Q)
    (complex_of_real : Q -> C) (numChannels : nat) (sampleRate : Z)
    (st : state) (rd : read_result) (reads : list read_result) :
  ((Z.of_nat (readSamples rd) < 44000)%Z ->
     asciiMessage (cycle cabs complex_of_real CHUNK_SIZE MIN_SAMPLES
                         numChannels sampleRate st rd)
     = asciiMessage st)
  /\ ((44000 <= Z.of_nat (readSamples rd))%Z ->
      asciiMessage (cycle cabs complex_of_real CHUNK_SIZE MIN_SAMPLES
                          numChannels sampleRate st rd)
      = asciiMessage st
        ++ [char_of_int
              (decode_window cabs complex_of_real CHUNK_SIZE sampleRate
                 (normalize_window numChannels (readSamples rd)
                    (store_read rd (buffer st))))])
  /\ exists suffix : list Z,
       asciiMessage (run cabs complex_of_real CHUNK_SIZE MIN_SAMPLES
                         numChannels sampleRate reads st)
       = asciiMessage st ++ suffix
       /\ length suffix = decoded_windows MIN_SAMPLES reads.
Proof.
  pose proof MIN_SAMPLES_eq as Hm.
  split; [|split].
  - intros Hlt. apply cycle_short. lia.
  - intros Hge. apply cycle_full. lia.
  - apply run_append.
Qed.


Lemma session_tail_drop_append_only_witness :
  asciiMessage
    (@cycle _ Transform.QC4_ops (fun z => Qabs (fst z))
            (fun x => (x, 0%Q)) CHUNK_SIZE MIN_SAMPLES 1 44100
            (State [] [72%Z]) (Read 100 (replicate 100 (1 # 2))))
  = [72%Z].
Proof.
  destruct (session_tail_drop_append_only _ Transform.QC4_ops
              (fun z => Qabs (fst z)) (fun x => (x, 0%Q)) 1 44100%Z
              (State [] [72%Z]) (Read 100 (replicate 100 (1 # 2))) [])
    as (Hshort & _ & _).
  apply Hshort. cbn. lia.
Defined.

End SessionFacts.

(** * Properties of the synthesizers *)

Module SynthFacts.
Import Synth.
#[local] Open Scope Q_scope.

(** ** Sample count *)

Lemma Qtruncate_floor (x : Q) : 0 <= x -> Qtruncate x = Qfloor x.
Proof.
  intros Hx. unfold Qtruncate, Qfloor. destruct x as [n d].
  cbn [Qnum Qden]. apply Z.quot_div_nonneg; [|lia].
  unfold Qle in Hx. cbn in Hx. lia.
Qed.

Lemma total_samples_eq (bps : Q) (count : nat) (sample_rate : Q) :
  ~ bps == 0 ->
  total_duration bps count * sample_rate
  == inject_Z (Z.of_nat count) / bps * sample_rate.
Proof. intros Hb. unfold total_duration. field. exact Hb. Qed.

Lemma total_samples_nonneg (bps : Q) (count : nat) (sample_rate : Q) :
  0 < bps -> 0 < sample_rate ->
  0 <= inject_Z (Z.of_nat count) / bps * sample_rate.
Proof.
  intros Hb Hs. apply Qmult_le_0_compat; [|now apply Qlt_le_weak].
  apply Qle_shift_div_l; [exact Hb|].
  rewrite Qmult_0_l. change 0 with (inject_Z 0).
  rewrite <- Zle_Qle. lia.
Qed.

Lemma num_samples_floor (bps : Q) (count : nat) (sample_rate : Q) :
  0 < bps -> 0 < sample_rate ->
  num_samples bps count sample_rate
  = Qfloor (inject_Z (Z.of_nat count) / bps * sample_rate).
Proof.
  intros Hb Hs. unfold num_samples.
  assert (Hne : ~ bps == 0) by (intros E; rewrite E in Hb; discriminate).
  pose proof (total_samples_eq bps count sample_rate Hne) as E.
  pose proof (total_samples_nonneg bps count sample_rate Hb Hs) as Hpos.
  rewrite Qtruncate_floor by (now rewrite E).
  now rewrite E.
Qed.

Lemma round_nearest_bounds (x : Q) :
  0 <= x -> (Qfloor x <= Qround_nearest x <= Qfloor x + 1)%Z.
Proof.
  intros Hx. unfold Qround_nearest.
  rewrite (proj2 (Qltb_ge x 0) Hx).
  split.
  - apply Qfloor_resp_le. Lqa.lra.
  - pose proof (Qfloor_le (x + (1 # 2))) as Hf.
    pose proof (Qlt_floor x) as Hlt. rewrite inject_Z_plus in Hlt.
    assert (H2 : inject_Z (Qfloor (x + (1 # 2))) < inject_Z (Qfloor x + 2)).
    { rewrite inject_Z_plus.
      change (inject_Z 1) with 1 in Hlt. change (inject_Z 2) with 2.
      Lqa.lra. }
    rewrite <- Zlt_Qlt in H2. lia.
Qed.

(** The synthesized buffer has [num_samples] entries. *)
Lemma sine_gen_with_length (sin : Q -> Q) (pow : Q -> Q -> Q)
    (bit_value : Z -> nat -> bool) (msg : string) (bytes : list Z)
    (bps level_dbfs sample_rate_khz : Q) :
  binary_to_bytes msg = inr bytes ->
  exists w : wav,
    sine_gen_with sin pow bit_value msg bps level_dbfs sample_rate_khz = inr w
    /\ length (pcm w)
       = Z.to_nat (num_samples bps (length bytes) (sample_rate_khz * 1000)).
Proof.
  intros Hb. unfold sine_gen_with. rewrite Hb.
  eexists. split; [reflexivity|]. cbn [pcm].
  now rewrite length_map, length_seq.
Qed.

(** ** Message conversion *)

Lemma binary_to_bits_fold (cs : list ascii) (bits : list bool)
    (warned : list ascii) :
  fold_left
    (fun (acc : list bool * list ascii) (c : ascii) =>
       if Ascii.eqb c "0" then (fst acc ++ [false], snd acc)
       else if Ascii.eqb c "1" then (fst acc ++ [true], snd acc)
       else (fst acc, snd acc ++ [c]))
    cs (bits, warned)
  = (bits ++ map (fun c => Ascii.eqb c "1") (List.filter is_binary cs),
     warned ++ List.filter (fun c => negb (is_binary c)) cs).
Proof.
  revert bits warned. induction cs as [|c cs IH]; intros bits warned.
  - cbn. now rewrite !app_nil_r.
  - cbn [fold_left List.filter fst snd].
    destruct (Ascii.eqb c "0") eqn:E0; [|destruct (Ascii.eqb c "1") eqn:E1].
    + assert (Hb : is_binary c = true) by (unfold is_binary; now rewrite E0).
      rewrite IH, Hb. cbn [negb map].
      apply Ascii.eqb_eq in E0. subst c. cbn [Ascii.eqb Bool.eqb].
      rewrite <- !List.app_assoc. reflexivity.
    + assert (Hb : is_binary c = true)
        by (unfold is_binary; now rewrite E0, E1).
      rewrite IH, Hb. cbn [negb map]. rewrite E1.
      rewrite <- !List.app_assoc. reflexivity.
    + assert (Hb : is_binary c = false)
        by (unfold is_binary; now rewrite E0, E1).
      rewrite IH, Hb. cbn [negb].
      rewrite <- !List.app_assoc. reflexivity.
Qed.

(** [binary_to_bits] keeps the binary digits in order and warns about
    every other character. *)
Lemma binary_to_bits_spec (binary : string) :
  binary_to_bits binary
  = (map (fun c => Ascii.eqb c "1")
         (List.filter is_binary (list_ascii_of_string binary)),
     List.filter (fun c => negb (is_binary c)) (list_ascii_of_string binary)).
Proof. unfold binary_to_bits. now rewrite binary_to_bits_fold. Qed.

Lemma list_ascii_of_string_app (s1 s2 : string) :
  list_ascii_of_string (s1 ++ s2)
  = list_ascii_of_string s1 ++ list_ascii_of_string s2.
Proof.
  induction s1 as [|c s1 IH]; [reflexivity|].
  cbn. now rewrite IH.
Qed.

(** The single-tone variant does what C9 says: a character other than
    '0' and '1' is dropped, with one warning, and the bits of the other
    characters are unchanged. *)
Lemma binary_to_bits_ignores (s1 s2 : string) (c : ascii) :
  is_binary c = false ->
  fst (binary_to_bits (s1 ++ String c s2)) = fst (binary_to_bits (s1 ++ s2))
  /\ snd (binary_to_bits (s1 ++ String c s2))
     = snd (binary_to_bits s1) ++ [c] ++ snd (binary_to_bits s2).
Proof.
  intros Hc. rewrite !binary_to_bits_spec. cbn [fst snd].
  rewrite !list_ascii_of_string_app. cbn [list_ascii_of_string].
  rewrite !List.filter_app. cbn [List.filter]. rewrite Hc. cbn [negb].
  split; reflexivity.
Qed.

(** The bound [length binary] on the iterations of [binary_to_bytes] is
    never what ends its loop: a larger bound gives the same result. *)
Lemma bytes_loop_fuel (fuel fuel' i : nat) (binary : string)
    (bytes : list Z) :
  (String.length binary - i <= fuel)%nat -> (fuel <= fuel')%nat ->
  bytes_loop fuel i binary bytes = bytes_loop fuel' i binary bytes.
Proof.
  revert fuel' i bytes.
  induction fuel as [|fuel IH]; intros fuel' i bytes Hrem Hle.
  - destruct fuel' as [|fuel']; [reflexivity|]. cbn [bytes_loop].
    destruct (Nat.ltb_spec i (String.length binary)); [lia | reflexivity].
  - destruct fuel' as [|fuel']; [lia|]. cbn [bytes_loop].
    destruct (Nat.ltb_spec i (String.length binary)); [|reflexivity].
    destruct (stoi2 (substring i 8 binary)); [reflexivity|].
    apply IH; lia.
Qed.

(** C9 (the code departs from it).  In the multi-tone synthesizers the
    message goes through [binary_to_bytes], which hands each group of 8
    characters to [std::stoi]: a malformed character at the start of a
    group throws [std::invalid_argument] and no waveform is produced;
    elsewhere it silently ends the group, so the valid digits after it are
    lost and there is no warning.  The single-tone [binary_to_bits] on the
    same message drops the character and warns. *)
Theorem binary_to_bytes_malformed (sin : Q -> Q) (pow : Q -> Q -> Q) :
  binary_to_bytes "x1000001" = inl invalid_argument
  /\ sine_gen sin pow "x1000001" 1 (-3) 44.1 = inl invalid_argument
  /\ sine_gen_lsb sin pow "x1000001" 1 (-3) 44.1 = inl invalid_argument
  /\ binary_to_bytes "01x00001" = inr [1%Z]
  /\ binary_to_bytes "0100001" = inr [33%Z]
  /\ binary_to_bits "01x00001"
     = ([false; true; false; false; false; false; true], ["x"%char])
  /\ binary_to_bits "0100001"
     = ([false; true; false; false; false; false; true], []).
Proof. repeat split. Qed.

(** ** Tones and classifier *)

Lemma tones_roundtrip_all :
  forallb
    (fun b => (Classifier.frequenciesToByte (tones bit_value_msb b) =? b)%Z)
    (map Z.of_nat (seq 0 256))
  = true.
Proof. vm_compute. reflexivity. Qed.

(** The eight tones the synthesizer with command-line flags emits for a
    byte are classified back to that byte: encoder and decoder use the
    same table and the same bit order. *)
Lemma tones_roundtrip (b : Z) :
  (0 <= b < 256)%Z ->
  Classifier.frequenciesToByte (tones bit_value_msb b) = b.
Proof.
  intros Hb. pose proof tones_roundtrip_all as Hall.
  rewrite forallb_forall in Hall.
  apply Z.eqb_eq, Hall.
  rewrite <- (Z2Nat.id b) by lia.
  apply in_map, in_seq. lia.
Qed.

(** The message "01000001" (ASCII A): one byte, 65; its tones; the bits
    the classifier resolves for table positions 0 to 7; the byte it
    returns. *)
Example scenario_letter_A :
  binary_to_bytes "01000001" = inr [65%Z]
  /\ tones bit_value_msb 65 = [300; 900; 1100; 1500; 1900; 2300; 2700; 3300]
  /\ Classifier.bitString
       (fst (Classifier.analyzeBits (tones bit_value_msb 65)))
     = [false; true; false; false; false; false; false; true]
  /\ Classifier.frequenciesToByte (tones bit_value_msb 65) = 65%Z.
Proof. repeat split. Qed.

(** The second program of sine_generator.cpp reads the bits of the byte
    from the least significant one: the classifier returns the byte with
    its bits in reverse order. *)
Example tones_lsb_reversed :
  Classifier.frequenciesToByte (tones bit_value_lsb 65) = 130%Z.
Proof. vm_compute. reflexivity. Qed.

End SynthFacts.

(** * More on the classifier: closest match, guard bands, noise *)

Module ClassifierMore.
Import Classifier ClassifierFacts.
#[local] Open Scope Q_scope.

Lemma scan_step_reject (pair : Q * Q) (st : scan) (f : Q) :
  ~ in_tolerance pair f -> scan_step pair st f = st.
Proof.
  intros Hf. unfold scan_step.
  rewrite step0_reject, step1_reject; [reflexivity| |];
    apply Qnot_lt_le; intros Hlt; apply Hf; [now right | now left].
Qed.

(** The resolved bits and reported frequencies, position by position. *)
Lemma analyzeBits_eq (freqs : list Q) :
  analyzeBits freqs
  = (map (fun i => if bit1Detected (scan_position i freqs) then 1%Z else 0%Z)
         (seq 0 8),
     map (fun i => closestFreq (scan_position i freqs)) (seq 0 8)).
Proof. reflexivity. Qed.

Lemma analyzeBits_ext (l l' : list Q) :
  (forall i, (i < 8)%nat -> scan_position i l = scan_position i l') ->
  analyzeBits l = analyzeBits l'.
Proof.
  intros Hext. rewrite !analyzeBits_eq.
  f_equal; apply map_ext_in; intros i Hi; apply in_seq in Hi;
    rewrite Hext by lia; reflexivity.
Qed.

Lemma bits_ext (l l' : list Q) :
  (forall i, (i < 8)%nat ->
     bit1Detected (scan_position i l) = bit1Detected (scan_position i l')) ->
  frequenciesToByte l = frequenciesToByte l'.
Proof.
  intros Hext. unfold frequenciesToByte. rewrite !analyzeBits_eq.
  cbn [fst]. f_equal. apply map_ext_in. intros i Hi. apply in_seq in Hi.
  rewrite Hext by lia. reflexivity.
Qed.

(** X1.  Noise immunity: a detected frequency that is not strictly within
    50 Hz of any of the 16 table tones changes nothing, wherever it stands
    in the list: neither the byte, nor the bits, nor the reported
    frequencies. *)
Theorem out_of_band_ignored (l1 l2 : list Q) (f : Q) :
  (forall i, (i < 8)%nat -> ~ in_tolerance (bitFrequencyPairs !!! i) f) ->
  analyzeBits (l1 ++ f :: l2) = analyzeBits (l1 ++ l2)
  /\ frequenciesToByte (l1 ++ f :: l2) = frequenciesToByte (l1 ++ l2).
Proof.
  intros Hf.
  assert (H : analyzeBits (l1 ++ f :: l2) = analyzeBits (l1 ++ l2)).
  { apply analyzeBits_ext. intros i Hi. unfold scan_position.
    rewrite !fold_left_app. cbn [fold_left].
    now rewrite scan_step_reject by (apply Hf; exact Hi). }
  split; [exact H|]. unfold frequenciesToByte. now rewrite H.
Qed.

Lemma out_of_band_ignored_witness :
  frequenciesToByte ([500] ++ 3700 :: [900])
  = frequenciesToByte ([500] ++ [900]).
Proof.
  apply (out_of_band_ignored [500] [900] 3700).
  intros i Hi [Hlt|Hlt];
    do 8 (destruct i as [|i]; [vm_compute in Hlt; discriminate|]); lia.
Defined.

(** X2.  Silence: when no detected frequency is strictly within 50 Hz of a
    table tone (in particular for an empty list), every bit is 0, no
    frequency is reported and the byte is 0. *)
Theorem nothing_in_band_zero (freqs : list Q) :
  (forall f i, In f freqs -> (i < 8)%nat ->
     ~ in_tolerance (bitFrequencyPairs !!! i) f) ->
  analyzeBits freqs = (replicate 8 0%Z, replicate 8 0)
  /\ frequenciesToByte freqs = 0%Z.
Proof.
  intros Hall.
  assert (H : analyzeBits freqs = analyzeBits []).
  { apply analyzeBits_ext. intros i Hi. unfold scan_position.
    rewrite scan_none; [reflexivity|]. intros f Hf. now apply Hall. }
  split; [exact H|]. unfold frequenciesToByte. now rewrite H.
Qed.

Lemma nothing_in_band_zero_witness :
  frequenciesToByte [100; 3600; 1000] = 0%Z.
Proof.
  apply (nothing_in_band_zero [100; 3600; 1000]).
  intros f i [<-|[<-|[<-|[]]]] Hi [Hlt|Hlt];
    do 8 (destruct i as [|i]; [vm_compute in Hlt; discriminate|]); lia.
Defined.

(** ** The closest match wins *)

Lemma scan_step_props (pair : Q * Q) (st : scan) (f : Q) :
  minDiff (scan_step pair st f) <= minDiff st
  /\ (Qabs (f - fst pair) < 50 ->
      minDiff (scan_step pair st f) <= Qabs (f - fst pair))
  /\ (Qabs (f - snd pair) < 50 ->
      minDiff (scan_step pair st f) <= Qabs (f - snd pair))
  /\ (bit0Detected (scan_step pair st f) = true ->
      (closestFreq (scan_step pair st f) = f
       /\ minDiff (scan_step pair st f) = Qabs (f - fst pair))
      \/ scan_step pair st f = st)
  /\ (bit1Detected (scan_step pair st f) = true ->
      (closestFreq (scan_step pair st f) = f
       /\ minDiff (scan_step pair st f) = Qabs (f - snd pair))
      \/ scan_step pair st f = st).
Proof.
  unfold scan_step, step0.
  destruct (Qltb (Qabs (f - fst pair)) 50) eqn:A0;
    destruct (Qltb (Qabs (f - fst pair)) (minDiff st)) eqn:B0;
    cbn [andb]; unfold step1; cbn [minDiff];
    destruct (Qltb (Qabs (f - snd pair)) 50) eqn:A1;
    cbn [andb];
    try match goal with
        | |- context [Qltb ?x ?y] => destruct (Qltb x y) eqn:B1
        end;
    cbn [andb minDiff bit0Detected bit1Detected closestFreq];
    qltb_facts;
    repeat split; intros;
      try discriminate; try Lqa.lra; auto.
Qed.

(** X3.  For every table position, after the scan of the detected frequencies:
    [minDiff] is at most the distance of any in-tolerance frequency to
    either tone, and when a bit is detected the reported frequency is one
    of the detected ones, at distance [minDiff] from the winning tone. *)
Theorem closest_match_wins (i : nat) (freqs : list Q) :
  (forall f, In f freqs ->
     Qabs (f - fst (bitFrequencyPairs !!! i)) < 50 ->
     minDiff (scan_position i freqs)
     <= Qabs (f - fst (bitFrequencyPairs !!! i)))
  /\ (forall f, In f freqs ->
     Qabs (f - snd (bitFrequencyPairs !!! i)) < 50 ->
     minDiff (scan_position i freqs)
     <= Qabs (f - snd (bitFrequencyPairs !!! i)))
  /\ (bit0Detected (scan_position i freqs) = true ->
      In (closestFreq (scan_position i freqs)) freqs
      /\ minDiff (scan_position i freqs)
         = Qabs (closestFreq (scan_position i freqs)
                 - fst (bitFrequencyPairs !!! i)))
  /\ (bit1Detected (scan_position i freqs) = true ->
      In (closestFreq (scan_position i freqs)) freqs
      /\ minDiff (scan_position i freqs)
         = Qabs (closestFreq (scan_position i freqs)
                 - snd (bitFrequencyPairs !!! i))).
Proof.
  unfold scan_position. generalize (bitFrequencyPairs !!! i). intros pair.
  induction freqs as [|f freqs IH] using rev_ind.
  - cbn. repeat split; intros; try contradiction; discriminate.
  - rewrite fold_left_app. cbn [fold_left].
    set (st := fold_left (scan_step pair) freqs scan_init) in *.
    destruct IH as (IH0 & IH1 & IHb0 & IHb1).
    destruct (scan_step_props pair st f) as (Hmono & H0 & H1 & Hb0 & Hb1).
    repeat apply conj.
    + intros g Hg Hlt. apply in_app_or in Hg as [Hg|[<-|[]]].
      * eapply Qle_trans; [exact Hmono | now apply IH0].
      * now apply H0.
    + intros g Hg Hlt. apply in_app_or in Hg as [Hg|[<-|[]]].
      * eapply Qle_trans; [exact Hmono | now apply IH1].
      * now apply H1.
    + intros Hb. destruct (Hb0 Hb) as [[Hc Hm]|Heq].
      * rewrite Hc, Hm. split; [|reflexivity].
        apply in_or_app. right. now left.
      * rewrite Heq in *. destruct (IHb0 Hb) as [Hin Hm].
        split; [apply in_or_app; now left | exact Hm].
    + intros Hb. destruct (Hb1 Hb) as [[Hc Hm]|Heq].
      * rewrite Hc, Hm. split; [|reflexivity].
        apply in_or_app. right. now left.
      * rewrite Heq in *. destruct (IHb1 Hb) as [Hin Hm].
        split; [apply in_or_app; now left | exact Hm].
Qed.

Lemma closest_match_wins_witness :
  minDiff (scan_position 0 [340; 310; 520]) <= Qabs (310 - 300)
  /\ In (closestFreq (scan_position 0 [340; 310; 520])) [340; 310; 520].
Proof.
  destruct (closest_match_wins 0 [340; 310; 520]) as (H0 & _ & Hb0 & _).
  split.
  - apply H0; [right; now left | reflexivity].
  - apply Hb0. reflexivity.
Defined.

End ClassifierMore.

(** * Encoder tones against the classifier *)

Module RoundTrip.
Import Classifier ClassifierFacts ClassifierMore Synth.
#[local] Open Scope Q_scope.

Lemma tables_agree : freq_table = bitFrequencyPairs.
Proof. reflexivity. Qed.

(** Any two different tones of the table are at least 200 Hz apart. *)
Lemma table_separated (i j : nat) (v v' : bool) :
  (i < 8)%nat -> (j < 8)%nat -> (i, v) <> (j, v') ->
  200 <= Qabs (table_freq i v - table_freq j v').
Proof.
  intros Hi Hj Hne.
  do 8 (destruct i as [|i];
        [do 8 (destruct j as [|j];
               [destruct v, v';
                first [now elim Hne | vm_compute; discriminate]|]);
         lia|]).
  lia.
Qed.

Lemma far_from (f t t' : Q) :
  Qabs (f - t) < 50 -> 200 <= Qabs (t - t') -> 50 <= Qabs (f - t').
Proof.
  intros H1 H2. apply Qabs_Qlt_condition in H1. destruct H1 as [H1 H1'].
  revert H2. apply (Qabs_case (t - t')); intros Hs H2;
    apply (Qabs_case (f - t')); intros Hs'; Lqa.lra.
Qed.

(** X4.  Guard bands: a frequency strictly within 50 Hz of one table tone is
    at least 50 Hz away from every other table tone, so it can count for
    one bit position and one bit value only. *)
Theorem guard_band (f : Q) (i j : nat) (v v' : bool) :
  (i < 8)%nat -> (j < 8)%nat -> (i, v) <> (j, v') ->
  Qabs (f - table_freq i v) < 50 ->
  50 <= Qabs (f - table_freq j v').
Proof.
  intros Hi Hj Hne Hlt.
  exact (far_from _ _ _ Hlt (table_separated i j v v' Hi Hj Hne)).
Qed.

Lemma guard_band_witness : 50 <= Qabs (520 - table_freq 1 false).
Proof.
  apply (guard_band 520 0 1 true false); [lia | lia | discriminate |].
  reflexivity.
Defined.

(** ** One position *)

Lemma scan_low_only (pair : Q * Q) (freqs : list Q) (st : scan) :
  (forall f, In f freqs -> 50 <= Qabs (f - snd pair)) ->
  bit1Detected st = false ->
  bit1Detected (fold_left (scan_step pair) freqs st) = false.
Proof.
  revert st. induction freqs as [|f freqs IH]; intros st Hall Hst;
    [exact Hst|].
  cbn [fold_left]. apply IH; [intros g Hg; apply Hall; now right|].
  unfold scan_step. rewrite step1_reject by (apply Hall; now left).
  unfold step0. now destruct (_ && _).
Qed.

Lemma scan_high_only_flag (pair : Q * Q) (freqs : list Q) (st : scan) :
  (forall f, In f freqs -> 50 <= Qabs (f - fst pair)) ->
  bit0Detected st = false ->
  bit0Detected (fold_left (scan_step pair) freqs st) = false.
Proof.
  revert st. induction freqs as [|f freqs IH]; intros st Hall Hst;
    [exact Hst|].
  cbn [fold_left]. apply IH; [intros g Hg; apply Hall; now right|].
  unfold scan_step. rewrite step0_reject by (apply Hall; now left).
  unfold step1. now destruct (_ && _).
Qed.

Lemma scan_high_only (pair : Q * Q) (freqs : list Q) :
  (forall f, In f freqs -> 50 <= Qabs (f - fst pair)) ->
  (exists f, In f freqs /\ Qabs (f - snd pair) < 50) ->
  bit1Detected (fold_left (scan_step pair) freqs scan_init) = true.
Proof.
  intros Hall (f & Hf & Hlt).
  pose proof (scan_high_only_flag pair freqs scan_init Hall eq_refl) as H0.
  destruct (scan_fold_inv pair freqs scan_init) as [Heq|[Hx _]];
    [now left | | ].
  - exfalso. revert Heq. apply scan_fold_detects; [now left|].
    right. exists f. split; [exact Hf | now right].
  - rewrite H0 in Hx. exact Hx.
Qed.

(** The bit resolved for position [i] when the detected frequencies are
    the tones of the bit values [v], each possibly off by less than
    50 Hz. *)
Lemma position_resolved (v : nat -> bool) (freqs : list Q) (i : nat) :
  (i < 8)%nat ->
  (forall bit, (bit < 8)%nat ->
     exists f, In f freqs /\ Qabs (f - table_freq bit (v bit)) < 50) ->
  (forall f, In f freqs ->
     exists bit, (bit < 8)%nat /\ Qabs (f - table_freq bit (v bit)) < 50) ->
  bit1Detected (scan_position i freqs) = v i.
Proof.
  intros Hi Hsome Hall.
  assert (Hother : forall f, In f freqs ->
            50 <= Qabs (f - table_freq i (negb (v i)))).
  { intros f Hf. destruct (Hall f Hf) as (j & Hj & Hlt).
    apply (far_from _ _ _ Hlt).
    apply table_separated; try assumption.
    intros Heq. injection Heq as -> Hv. now destruct (v i). }
  unfold scan_position.
  destruct (v i) eqn:Ev; cbn [negb] in Hother.
  - apply scan_high_only; [exact Hother|].
    destruct (Hsome i Hi) as (f & Hf & Hlt). rewrite Ev in Hlt.
    exists f. split; [exact Hf | exact Hlt].
  - apply scan_low_only; [exact Hother | reflexivity].
Qed.

(** X5.  Round trip with tolerance.  If every tone the synthesizer (the variant
    with command-line flags) emits for byte [b] has a detected frequency
    strictly within 50 Hz, and every detected frequency is strictly within
    50 Hz of one of these eight tones, the classifier returns [b]. *)
Theorem tolerant_roundtrip (b : Z) (freqs : list Q) :
  (0 <= b < 256)%Z ->
  (forall bit, (bit < 8)%nat ->
     exists f, In f freqs
               /\ Qabs (f - table_freq bit (bit_value_msb b bit)) < 50) ->
  (forall f, In f freqs ->
     exists bit, (bit < 8)%nat
                 /\ Qabs (f - table_freq bit (bit_value_msb b bit)) < 50) ->
  frequenciesToByte freqs = b.
Proof.
  intros Hb Hsome Hall.
  transitivity (frequenciesToByte (tones bit_value_msb b));
    [|now apply SynthFacts.tones_roundtrip].
  apply bits_ext. intros i Hi.
  rewrite (position_resolved (bit_value_msb b) freqs i Hi Hsome Hall).
  symmetry. apply position_resolved; [exact Hi | |].
  - intros bit Hbit. exists (table_freq bit (bit_value_msb b bit)). split.
    + unfold tones. apply (in_map (fun k => table_freq k (bit_value_msb b k))).
      apply in_seq. lia.
    + apply Qabs_Qlt_condition. split; Lqa.lra.
  - intros f Hf. unfold tones in Hf. apply in_map_iff in Hf as (k & <- & Hk).
    apply in_seq in Hk. exists k. split; [lia|].
    apply Qabs_Qlt_condition. split; Lqa.lra.
Qed.

Lemma tolerant_roundtrip_witness :
  frequenciesToByte [3310; 2690; 2310; 1880; 1501; 1099; 949.9; 251] = 65%Z.
Proof.
  apply tolerant_roundtrip; [lia | |].
  - intros bit Hbit.
    destruct bit as [|[|[|[|[|[|[|[|bit]]]]]]]]; [| | | | | | | |lia].
    + exists 251. split; [cbn; tauto | reflexivity].
    + exists 949.9. split; [cbn; tauto | reflexivity].
    + exists 1099. split; [cbn; tauto | reflexivity].
    + exists 1501. split; [cbn; tauto | reflexivity].
    + exists 1880. split; [cbn; tauto | reflexivity].
    + exists 2310. split; [cbn; tauto | reflexivity].
    + exists 2690. split; [cbn; tauto | reflexivity].
    + exists 3310. split; [cbn; tauto | reflexivity].
  - intros f [<-|[<-|[<-|[<-|[<-|[<-|[<-|[<-|[]]]]]]]]].
    + exists 7%nat. split; [lia | reflexivity].
    + exists 6%nat. split; [lia | reflexivity].
    + exists 5%nat. split; [lia | reflexivity].
    + exists 4%nat. split; [lia | reflexivity].
    + exists 3%nat. split; [lia | reflexivity].
    + exists 2%nat. split; [lia | reflexivity].
    + exists 1%nat. split; [lia | reflexivity].
    + exists 0%nat. split; [lia | reflexivity].
Defined.

Lemma lsb_tones_all :
  forallb
    (fun b =>
       forallb
         (fun i =>
            Bool.eqb
              (Z.testbit (frequenciesToByte (tones bit_value_lsb b))
                         (7 - Z.of_nat i))
              (Z.testbit b (Z.of_nat i)))
         (seq 0 8))
    (map Z.of_nat (seq 0 256))
  = true.
Proof. vm_compute. reflexivity. Qed.

(** X6.  The second program of sine_generator.cpp selects the tone of table
    position [i] from bit [i] of the byte, counted from the least
    significant one; the classifier puts position [i] at bit [7 - i]: the
    byte comes back with its eight bits in reverse order. *)
Theorem lsb_variant_reversed (b : Z) (i : nat) :
  (0 <= b < 256)%Z -> (i < 8)%nat ->
  Z.testbit (frequenciesToByte (tones bit_value_lsb b)) (7 - Z.of_nat i)
  = Z.testbit b (Z.of_nat i).
Proof.
  intros Hb Hi. pose proof lsb_tones_all as Hall.
  rewrite forallb_forall in Hall.
  specialize (Hall b). rewrite forallb_forall in Hall.
  apply Bool.eqb_prop, Hall.
  - rewrite <- (Z2Nat.id b) by lia. apply in_map, in_seq. lia.
  - apply in_seq. lia.
Qed.

Lemma lsb_variant_reversed_witness :
  Z.testbit (frequenciesToByte (tones bit_value_lsb 65)) 7 = true.
Proof.
  exact (lsb_variant_reversed 65 0 ltac:(lia) ltac:(lia)).
Defined.

End RoundTrip.

(** * More on the peak extractors *)

Module PeaksMore.
Import Peaks PeaksFacts SingleTone.
#[local] Open Scope Q_scope.

Section Extract.
Context {C : Type} `{Inhabited C}.
Variable cabs : C -> Q.

Lemma topPeaks_incl (fftResult : list C) (N : nat) (p : Q * nat) :
  In p (topPeaks cabs fftResult N) ->
  exists i : nat,
    p = (cabs (fftResult !!! i), i) /\ (1 <= i)%nat /\ (i < N / 2)%nat.
Proof.
  intros Hp. unfold topPeaks in Hp.
  assert (Hs : In p (sort_desc (magnitudes cabs fftResult N))).
  { rewrite <- (take_drop 8). apply in_or_app. now left. }
  apply (Permutation_in _ (sort_desc_perm _)) in Hs.
  unfold magnitudes in Hs. apply in_map_iff in Hs as (i & <- & Hi).
  apply in_seq in Hi. exists i. split; [reflexivity | lia].
Qed.

Lemma bin_frequency_bounds (N i : nat) (sampleRate : Q) :
  0 < sampleRate -> (1 <= i)%nat -> (i < N / 2)%nat ->
  0 < bin_frequency N sampleRate i
  /\ bin_frequency N sampleRate i < sampleRate / 2.
Proof.
  intros Hsr Hi HN. unfold bin_frequency.
  assert (Ha : 1 <= inject_Z (Z.of_nat i)).
  { change 1 with (inject_Z 1). rewrite <- Zle_Qle. lia. }
  assert (Hn : 2 * inject_Z (Z.of_nat i) + 2 <= inject_Z (Z.of_nat N)).
  { change 2 with (inject_Z 2).
    rewrite <- inject_Z_mult, <- inject_Z_plus, <- Zle_Qle. lia. }
  set (a := inject_Z (Z.of_nat i)) in *.
  set (n := inject_Z (Z.of_nat N)) in *.
  assert (Hn0 : 0 < n) by Lqa.lra.
  split.
  - apply Qlt_shift_div_l; [exact Hn0|]. Lqa.nra.
  - apply Qlt_shift_div_r; [exact Hn0|].
    assert (E : sampleRate / 2 * n == sampleRate * n / 2) by (field).
    rewrite E. apply Qlt_shift_div_l; [reflexivity|]. Lqa.nra.
Qed.

End Extract.

(** X7.  Every frequency returned by [getTop8Frequencies] is that of a bin in
    1 .. N/2 - 1: it lies strictly between 0 Hz and half the sample rate;
    the DC bin and the mirrored upper half of the spectrum are never
    reported. *)
Theorem top8_below_nyquist (C : Type) (inh : Inhabited C) (cabs : C -> Q)
    (fftResult : list C) (N : nat) (sampleRate f : Q) :
  0 < sampleRate ->
  In f (getTop8Frequencies cabs fftResult N sampleRate) ->
  0 < f /\ f < sampleRate / 2.
Proof.
  intros Hsr Hf. unfold getTop8Frequencies in Hf.
  apply in_map_iff in Hf as (p & <- & Hp).
  apply topPeaks_incl in Hp as (i & -> & Hi & HN). cbn [snd].
  now apply bin_frequency_bounds.
Qed.

Lemma top8_below_nyquist_witness :
  0 < (5 # 1) * 44100 / 12 /\ (5 # 1) * 44100 / 12 < 44100 / 2.
Proof.
  apply (top8_below_nyquist Q _ Qabs
           [0; 1; 3; 3; 2; 5; 7; 7; 7; 7; 7; 7] 12 44100);
    [reflexivity|].
  vm_compute. left. reflexivity.
Defined.

(** X8.  The retained bins are pairwise different: no bin is reported twice. *)
Theorem top8_bins_distinct (C : Type) (inh : Inhabited C) (cabs : C -> Q)
    (fftResult : list C) (N : nat) :
  List.NoDup (map snd (topPeaks cabs fftResult N)).
Proof.
  assert (Hnd : List.NoDup
                  (map snd (sort_desc (magnitudes cabs fftResult N)))).
  { apply (Permutation_NoDup
             (l := map snd (magnitudes cabs fftResult N))).
    - apply Permutation_map, Permutation_sym, sort_desc_perm.
    - rewrite magnitudes_bins. apply seq_NoDup. }
  rewrite <- (take_drop 8 (sort_desc _)), map_app in Hnd.
  exact (NoDup_app_remove_r _ _ Hnd).
Qed.

(** X9.  The ranking does not depend on how [std::sort] arranges its input:
    every arrangement of the candidates in strictly descending order
    starts with the same eight pairs. *)
Theorem top8_sort_independent (C : Type) (inh : Inhabited C) (cabs : C -> Q)
    (fftResult : list C) (N : nat) (sorted : list (Q * nat)) :
  Permutation sorted (magnitudes cabs fftResult N) ->
  StronglySorted gt_pair sorted ->
  take 8 sorted = topPeaks cabs fftResult N.
Proof.
  intros Hp Hs. unfold topPeaks. f_equal.
  apply sorted_unique; [exact Hs | apply sorted_magnitudes|].
  rewrite Hp. apply Permutation_sym, sort_desc_perm.
Qed.

Lemma top8_sort_independent_witness :
  take 8 [(5, 5%nat); (3, 3%nat); (3, 2%nat); (2, 4%nat); (1, 1%nat)]
  = topPeaks Qabs [0; 1; 3; 3; 2; 5; 7; 7; 7; 7; 7; 7] 12.
Proof.
  apply top8_sort_independent.
  - replace [(5, 5%nat); (3, 3%nat); (3, 2%nat); (2, 4%nat); (1, 1%nat)]
      with (sort_desc
              (magnitudes Qabs [0; 1; 3; 3; 2; 5; 7; 7; 7; 7; 7; 7] 12))
      by (vm_compute; reflexivity).
    apply sort_desc_perm.
  - replace [(5, 5%nat); (3, 3%nat); (3, 2%nat); (2, 4%nat); (1, 1%nat)]
      with (sort_desc
              (magnitudes Qabs [0; 1; 3; 3; 2; 5; 7; 7; 7; 7; 7; 7] 12))
      by (vm_compute; reflexivity).
    apply sorted_magnitudes.
Defined.

End PeaksMore.

(** * The single-tone analyzer *)

Module SingleToneFacts.
Import Peaks PeaksFacts PeaksMore SingleTone.
#[local] Open Scope Q_scope.

Section Dominant.
Context {C : Type} `{Inhabited C}.
Variable cabs : C -> Q.

Lemma dominant_fold_S (fftResult : list C) (n : nat) :
  fold_left (dominant_step cabs fftResult) (seq 1 (S n)) (0%nat, 0)
  = dominant_step cabs fftResult
      (fold_left (dominant_step cabs fftResult) (seq 1 n) (0%nat, 0)) (S n).
Proof. now rewrite seq_S, fold_left_app. Qed.

(** Loop invariant of [getDominantFrequency] after the bins 1 .. n. *)
Lemma dominant_fold_inv (fftResult : list C) (n : nat) :
  let st := fold_left (dominant_step cabs fftResult) (seq 1 n) (0%nat, 0) in
  (forall i, (1 <= i <= n)%nat -> cabs (fftResult !!! i) <= snd st)
  /\ ((fst st = 0%nat /\ snd st = 0)
      \/ ((1 <= fst st <= n)%nat
          /\ snd st = cabs (fftResult !!! fst st)
          /\ 0 < snd st
          /\ forall i, (1 <= i < fst st)%nat ->
                       cabs (fftResult !!! i) < snd st)).
Proof.
  induction n as [|n IH]; cbn zeta.
  - split; [intros i Hi; lia | now left].
  - rewrite dominant_fold_S.
    set (st := fold_left (dominant_step cabs fftResult) (seq 1 n) (0%nat, 0))
      in *.
    cbn zeta in IH. destruct IH as [Hmax Hpeak].
    unfold dominant_step.
    destruct (Qltb (snd st) (cabs (fftResult !!! S n))) eqn:E; qltb_facts;
      cbn [fst snd].
    + split.
      * intros i Hi. destruct (decide (i = S n)) as [->|Hne];
          [apply Qle_refl|].
        apply Qlt_le_weak. eapply Qle_lt_trans; [apply Hmax; lia | exact E].
      * right. split; [lia|]. split; [reflexivity|]. split.
        -- destruct Hpeak as [[_ Hz]|(_ & _ & Hpos & _)].
           ++ now rewrite Hz in E.
           ++ now apply Qlt_trans with (snd st).
        -- intros i Hi. eapply Qle_lt_trans; [apply Hmax; lia | exact E].
    + split.
      * intros i Hi. destruct (decide (i = S n)) as [->|Hne];
          [exact E | apply Hmax; lia].
      * destruct Hpeak as [Hz|(Hr & He & Hpos & Hfirst)]; [now left|].
        right. repeat split; try assumption; lia.
Qed.

End Dominant.

(** X10.  For a window length [N] other than 0, [getDominantFrequency]
    reports bin 0 (0 Hz) when no bin in
    1 .. N/2 - 1 has a positive magnitude; otherwise it reports the bin of
    largest magnitude, and among bins of that magnitude the lowest one
    ([getTop8Frequencies] ranks the highest one first). *)
Theorem dominant_peak_spec (C : Type) (inh : Inhabited C) (cabs : C -> Q)
    (fftResult : list C) (N : nat) (sampleRate : Q) :
  N <> 0%nat ->
  (forall i, (1 <= i < N / 2)%nat ->
     cabs (fftResult !!! i) <= snd (dominant_peak cabs fftResult N))
  /\ ((fst (dominant_peak cabs fftResult N) = 0%nat
       /\ snd (dominant_peak cabs fftResult N) = 0
       /\ getDominantFrequency cabs fftResult N sampleRate == 0)
      \/ ((1 <= fst (dominant_peak cabs fftResult N) < N / 2)%nat
          /\ snd (dominant_peak cabs fftResult N)
             = cabs (fftResult !!! fst (dominant_peak cabs fftResult N))
          /\ 0 < snd (dominant_peak cabs fftResult N)
          /\ forall i,
               (1 <= i < fst (dominant_peak cabs fftResult N))%nat ->
               cabs (fftResult !!! i)
               < snd (dominant_peak cabs fftResult N))).
Proof.
  intros _.
  destruct (dominant_fold_inv cabs fftResult (N / 2 - 1)) as [Hmax Hpeak].
  cbn zeta in Hmax, Hpeak. fold (dominant_peak cabs fftResult N) in *.
  split.
  - intros i Hi. apply Hmax. lia.
  - destruct Hpeak as [[Hp Hm]|(Hr & He & Hpos & Hfirst)].
    + left. split; [exact Hp|]. split; [exact Hm|].
      unfold getDominantFrequency, bin_frequency. rewrite Hp.
      unfold Qdiv. now rewrite !Qmult_0_l.
    + right. repeat split; try assumption; lia.
Qed.

Lemma dominant_peak_spec_witness :
  Qabs ([0; 1; 3; 3; 2; 0; 7; 7; 7; 7; 7; 7] !!! 3%nat)
  <= snd (dominant_peak Qabs [0; 1; 3; 3; 2; 0; 7; 7; 7; 7; 7; 7] 12).
Proof.
  destruct (dominant_peak_spec Q _ Qabs
              [0; 1; 3; 3; 2; 0; 7; 7; 7; 7; 7; 7] 12%nat 44100
              ltac:(discriminate))
    as [Hmax _].
  apply Hmax. cbn. lia.
Defined.

(** Bins 2 and 3 tie: the single-tone analyzer reports bin 2. *)
Example dominant_tie :
  dominant_peak Qabs [0; 1; 3; 3; 2; 0; 7; 7; 7; 7; 7; 7] 12 = (2%nat, 3).
Proof. reflexivity. Qed.

(** X11.  When one bin in 1 .. N/2 - 1 has a positive magnitude strictly above
    all the others, the single-tone and the multi-tone extractor agree on
    it: [getDominantFrequency] is the first frequency of
    [getTop8Frequencies]. *)
Theorem dominant_is_first_peak (C : Type) (inh : Inhabited C)
    (cabs : C -> Q) (fftResult : list C) (N q : nat) (sampleRate : Q) :
  (1 <= q < N / 2)%nat ->
  0 < cabs (fftResult !!! q) ->
  (forall i, (1 <= i < N / 2)%nat -> i <> q ->
     cabs (fftResult !!! i) < cabs (fftResult !!! q)) ->
  getDominantFrequency cabs fftResult N sampleRate
  = bin_frequency N sampleRate q
  /\ head (getTop8Frequencies cabs fftResult N sampleRate)
     = Some (bin_frequency N sampleRate q).
Proof.
  intros Hq Hpos Hmax. split.
  - unfold getDominantFrequency. f_equal.
    destruct (dominant_fold_inv cabs fftResult (N / 2 - 1)) as [Hle Hpeak].
    cbn zeta in Hle, Hpeak. fold (dominant_peak cabs fftResult N) in *.
    specialize (Hle q ltac:(lia)).
    destruct Hpeak as [[_ Hm]|(Hr & He & _ & _)].
    + rewrite Hm in Hle. Lqa.lra.
    + destruct (decide (fst (dominant_peak cabs fftResult N) = q))
        as [Heq|Hne]; [exact Heq|].
      assert (Hr' : (1 <= fst (dominant_peak cabs fftResult N) < N / 2)%nat)
        by lia.
      specialize (Hmax _ Hr' Hne).
      rewrite He in Hle. Lqa.lra.
  - unfold getTop8Frequencies, topPeaks.
    pose proof (sorted_magnitudes cabs fftResult N) as Hs.
    pose proof (sort_desc_perm (magnitudes cabs fftResult N)) as Hp.
    assert (Hin : In (cabs (fftResult !!! q), q)
                     (sort_desc (magnitudes cabs fftResult N))).
    { apply (Permutation_in _ (Permutation_sym Hp)).
      unfold magnitudes.
      apply (in_map (fun i => (cabs (fftResult !!! i), i))).
      apply in_seq. lia. }
    assert (Hall : forall p, In p (sort_desc (magnitudes cabs fftResult N)) ->
              exists i, p = (cabs (fftResult !!! i), i)
                        /\ (1 <= i < N / 2)%nat).
    { intros p Hp'. apply (Permutation_in _ Hp) in Hp'.
      unfold magnitudes in Hp'. apply in_map_iff in Hp' as (i & <- & Hi).
      apply in_seq in Hi. exists i. split; [reflexivity | lia]. }
    destruct (sort_desc (magnitudes cabs fftResult N)) as [|h rest];
      [destruct Hin|].
    cbn [take map head]. f_equal. f_equal.
    destruct Hin as [->|Hin]; [reflexivity|].
    apply StronglySorted_inv in Hs as [_ Hh].
    rewrite List.Forall_forall in Hh. specialize (Hh _ Hin).
    destruct (Hall h (or_introl eq_refl)) as (i & -> & Hi).
    cbn [snd]. destruct (decide (i = q)) as [Heq|Hne]; [exact Heq|].
    specialize (Hmax i Hi Hne).
    unfold gt_pair in Hh. cbn [fst snd] in Hh.
    destruct Hh as [Hlt|[Heq _]]; Lqa.lra.
Qed.

Lemma dominant_is_first_peak_witness :
  head (getTop8Frequencies Qabs [0; 1; 3; 3; 2; 5; 7; 7; 7; 7; 7; 7] 12 44100)
  = Some (bin_frequency 12 44100 5).
Proof.
  apply (dominant_is_first_peak Q _ Qabs
           [0; 1; 3; 3; 2; 5; 7; 7; 7; 7; 7; 7] 12 5 44100).
  - cbn. lia.
  - reflexivity.
  - intros i Hi Hne. cbn in Hi.
    destruct i as [|[|[|[|[|[|i]]]]]]; try lia; reflexivity.
Defined.

End SingleToneFacts.

(** * More on the session loop: padding, memory, rendering *)

Module SessionMore.
Import Session SessionFacts.

Lemma fold_insert_length (i : nat) (g : list Q -> nat -> Q) (l : list nat)
    (buf : list Q) :
  length (fold_left (fun (b : list Q) (ch : nat) => <[i := g b ch]> b) l buf)
  = length buf.
Proof.
  revert buf. induction l as [|ch l IH]; intros buf; [reflexivity|].
  cbn [fold_left]. now rewrite IH, length_insert.
Qed.

Lemma downmix_frame_length (numChannels : nat) (buf : list Q) (i : nat) :
  length (downmix_frame numChannels buf i) = length buf.
Proof.
  unfold downmix_frame. rewrite length_insert.
  rewrite (fold_insert_length i
             (fun b ch => (b !!! i + b !!! (i * numChannels + ch)%nat)%Q)).
  apply length_insert.
Qed.

Lemma downmix_length (numChannels n : nat) (buf : list Q) :
  length (downmix numChannels n buf) = length buf.
Proof.
  unfold downmix. destruct (1 <? numChannels)%nat; [|reflexivity].
  generalize (seq 0 n). intros l. revert buf.
  induction l as [|i l IH]; intros buf; [reflexivity|].
  cbn [fold_left]. now rewrite IH, downmix_frame_length.
Qed.

Lemma normalize_window_length (numChannels n : nat) (buf : list Q) :
  length (normalize_window numChannels n buf) = length buf.
Proof.
  unfold normalize_window. now rewrite downmix_length, zero_fill_length.
Qed.

Lemma store_read_length (rd : read_result) (buf : list Q) :
  (length (samples rd) <= length buf)%nat ->
  length (store_read rd buf) = length buf.
Proof.
  intros Hle. unfold store_read. rewrite length_app, length_drop. lia.
Qed.

(** After the zero padding, the buffer holds the first [readSamples]
    entries just read and zeros: nothing of its earlier content. *)
Lemma zero_fill_store_read (rd : read_result) (buf : list Q) :
  (readSamples rd <= length (samples rd))%nat ->
  (length (samples rd) <= length buf)%nat ->
  zero_fill (readSamples rd) (store_read rd buf)
  = take (readSamples rd) (samples rd)
    ++ replicate (length buf - readSamples rd) 0%Q.
Proof.
  intros Hr Hs. unfold zero_fill.
  rewrite store_read_length by exact Hs.
  unfold store_read. now rewrite take_app_le by exact Hr.
Qed.

(** X12.  Memoryless decoding: the window handed to the transform depends on
    the frames of the current read only, not on what earlier iterations
    left in [buffer]. *)
Theorem normalize_memoryless (numChannels : nat) (rd : read_result)
    (buf1 buf2 : list Q) :
  length buf1 = length buf2 ->
  (readSamples rd <= length (samples rd))%nat ->
  (length (samples rd) <= length buf1)%nat ->
  normalize_window numChannels (readSamples rd) (store_read rd buf1)
  = normalize_window numChannels (readSamples rd) (store_read rd buf2).
Proof.
  intros Hlen Hr Hs. unfold normalize_window.
  rewrite !zero_fill_store_read by lia. now rewrite Hlen.
Qed.

Lemma normalize_memoryless_witness :
  normalize_window 2 2 (store_read (Read 2 [1; 1; 2; 2]%Q) [9; 9; 9; 9; 9; 9]%Q)
  = normalize_window 2 2 (store_read (Read 2 [1; 1; 2; 2]%Q) [0; 0; 0; 0; 0; 0]%Q).
Proof.
  apply (normalize_memoryless 2 (Read 2 [1; 1; 2; 2]%Q));
    [reflexivity | cbn; lia | cbn; lia].
Defined.

(** X13.  Zero-pad law, one channel: a read of [readSamples] frames is decoded
    from these samples followed by silence up to the window length. *)
Theorem mono_zero_padded (rd : read_result) (buf : list Q) :
  readSamples rd = length (samples rd) ->
  (length (samples rd) <= length buf)%nat ->
  normalize_window 1 (readSamples rd) (store_read rd buf)
  = samples rd ++ replicate (length buf - readSamples rd) 0%Q.
Proof.
  intros Hr Hs. unfold normalize_window, downmix. cbn [Nat.ltb Nat.leb].
  rewrite zero_fill_store_read by lia.
  now rewrite Hr, firstn_all.
Qed.

Lemma mono_zero_padded_witness :
  normalize_window 1 3 (store_read (Read 3 [1; 2; 3]%Q) [9; 9; 9; 9; 9]%Q)
  = [1; 2; 3; 0; 0]%Q.
Proof.
  exact (mono_zero_padded (Read 3 [1; 2; 3]%Q) [9; 9; 9; 9; 9]%Q
           eq_refl ltac:(cbn; lia)).
Defined.

(** X14.  Two channels: for the frames 1 .. (readSamples - 2) / 2 the down-mixed
    sample is the mean of the two channel samples. *)
Theorem stereo_mean (n : nat) (buf : list Q) (i : nat) :
  (1 <= i)%nat -> (i * 2 + 1 < n)%nat -> (n <= length buf)%nat ->
  normalize_window 2 n buf !!! i
  == (buf !!! (i * 2)%nat + buf !!! (i * 2 + 1)%nat) / 2.
Proof.
  intros Hi Hin Hlen. unfold normalize_window.
  rewrite downmix2_frame by (rewrite ?zero_fill_length; lia).
  rewrite !zero_fill_lookup by lia.
  destruct (Nat.ltb_spec (i * 2) n); [|lia].
  destruct (Nat.ltb_spec (i * 2 + 1) n); [|lia].
  field.
Qed.

Lemma stereo_mean_witness :
  normalize_window 2 4 [1; 1; 2; 4; 3; 3; 4; 4]%Q !!! 1%nat == (2 + 4) / 2.
Proof.
  apply (stereo_mean 4 [1; 1; 2; 4; 3; 3; 4; 4]%Q 1); cbn; lia.
Defined.

(** ** The whole run *)

Section Run.
Context {C : Type} `{Transform.ComplexOps C}.
Variable cabs : C -> Q.
Variable complex_of_real : Q -> C.
Variables chunk_size min_samples numChannels : nat.
Variable sampleRate : Z.

Lemma cycle_buffer_length (st : state) (rd : read_result) :
  length (buffer st) = (chunk_size * numChannels)%nat ->
  read_fits chunk_size numChannels rd ->
  length (buffer (cycle cabs complex_of_real chunk_size min_samples
                        numChannels sampleRate st rd))
  = (chunk_size * numChannels)%nat.
Proof.
  intros Hlen [Hr Hs]. unfold cycle.
  destruct (readSamples rd <? min_samples)%nat; cbn [buffer];
    rewrite ?normalize_window_length, store_read_length; lia.
Qed.

Lemma run_message (reads : list read_result) (st : state) :
  length (buffer st) = (chunk_size * numChannels)%nat ->
  Forall (read_fits chunk_size numChannels) reads ->
  asciiMessage (run cabs complex_of_real chunk_size min_samples numChannels
                    sampleRate reads st)
  = asciiMessage st
    ++ map (window_byte cabs complex_of_real chunk_size numChannels sampleRate)
           (decoded_reads min_samples reads).
Proof.
  intros Hlen Hfit. revert st Hlen.
  induction Hfit as [|rd reads Hrd Hfit IH]; intros st Hlen.
  - cbn. now rewrite app_nil_r.
  - cbn [run decoded_reads].
    destruct (0 <? readSamples rd)%nat; [|cbn; now rewrite app_nil_r].
    rewrite IH by (now apply cycle_buffer_length).
    unfold cycle.
    destruct (readSamples rd <? min_samples)%nat; cbn [asciiMessage];
      [reflexivity|].
    rewrite <- List.app_assoc. cbn [app map]. do 3 f_equal.
    unfold window_byte. do 2 f_equal.
    destruct Hrd as [Hr Hs].
    unfold normalize_window.
    rewrite !zero_fill_store_read by (rewrite ?length_replicate; lia).
    now rewrite Hlen, length_replicate.
Qed.

End Run.

(** X15.  The decoded message is the sequence, in reading order, of the bytes of
    the windows of at least [MIN_SAMPLES] frames (up to the first empty
    read), each decoded from its own read alone. *)
Theorem message_by_window (C : Type) (ops : Transform.ComplexOps C)
    (cabs : C -> Q) (complex_of_real : Q -> C) (numChannels : nat)
    (sampleRate : Z) (reads : list read_result) :
  Forall (read_fits CHUNK_SIZE numChannels) reads ->
  decoded_message cabs complex_of_real CHUNK_SIZE MIN_SAMPLES numChannels
                  sampleRate reads
  = map (window_byte cabs complex_of_real CHUNK_SIZE numChannels sampleRate)
        (decoded_reads MIN_SAMPLES reads).
Proof.
  intros Hfit. unfold decoded_message.
  rewrite run_message; [reflexivity | | exact Hfit].
  unfold initial_state. cbn [buffer]. apply length_replicate.
Qed.

Lemma message_by_window_witness :
  @decoded_message _ Transform.QC4_ops (fun z => Qabs (fst z))
                   (fun x => (x, 0%Q)) CHUNK_SIZE MIN_SAMPLES 1 44100
                   [Read 3 [1; 2; 3]%Q; Read 0 []]
  = [].
Proof.
  rewrite (message_by_window _ Transform.QC4_ops).
  - reflexivity.
  - pose proof CHUNK_SIZE_eq.
    apply List.Forall_cons; [|apply List.Forall_cons; [|apply List.Forall_nil]];
      unfold read_fits; cbn [readSamples samples length]; lia.
Defined.

(** ** The message on the console *)

(** X16.  A decoded byte is stored as a [char]: its value modulo 256 is the
    byte; when the message is printed it appears as itself if it is a
    printable ASCII code (32 .. 126) and as '?' (63) otherwise, bytes
    above 127 included. *)
Theorem byte_stored_and_rendered (b : Z) :
  (0 <= b < 256)%Z ->
  (char_of_int b mod 256 = b)%Z
  /\ (-128 <= char_of_int b < 128)%Z
  /\ Render.render [char_of_int b]
     = [if ((32 <=? b) && (b <=? 126))%Z then b else 63%Z].
Proof.
  intros Hb. unfold char_of_int, Render.render, Render.isprint. cbn [map].
  repeat split; try lia.
  destruct (32 <=? b)%Z eqn:E1, (b <=? 126)%Z eqn:E2; cbn [andb];
    destruct (32 <=? (b + 128) mod 256 - 128)%Z eqn:E3,
             ((b + 128) mod 256 - 128 <=? 126)%Z eqn:E4; cbn [andb];
    try reflexivity; f_equal; lia.
Qed.

Lemma byte_stored_and_rendered_witness :
  Render.render [char_of_int 200] = [63%Z]
  /\ Render.render [char_of_int 65] = [65%Z].
Proof.
  destruct (byte_stored_and_rendered 200 ltac:(lia)) as (_ & _ & H200).
  destruct (byte_stored_and_rendered 65 ltac:(lia)) as (_ & _ & H65).
  split; [exact H200 | exact H65].
Defined.

(** X17.  The printed message has one character per decoded byte, and every
    printed character is printable. *)
Theorem render_printable (msg : list Z) :
  length (Render.render msg) = length msg
  /\ forall c, In c (Render.render msg) -> (32 <= c <= 126)%Z.
Proof.
  unfold Render.render. split; [apply length_map|].
  intros c Hc. apply in_map_iff in Hc as (x & <- & _).
  unfold Render.isprint.
  destruct (32 <=? x)%Z eqn:E1, (x <=? 126)%Z eqn:E2; cbn [andb]; lia.
Qed.

Lemma render_printable_witness :
  length (Render.render [72; -56; 10; 105]%Z) = 4%nat
  /\ List.Forall (fun c => 32 <= c <= 126)%Z
                 (Render.render [72; -56; 10; 105]%Z).
Proof.
  destruct (render_printable [72; -56; 10; 105]%Z) as [Hlen Hin].
  split; [exact Hlen | apply List.Forall_forall; exact Hin].
Defined.

End SessionMore.

(** * More on the synthesizers *)

Module SynthMore.
Import Synth Spelling.
#[local] Open Scope Q_scope.

(** ** Sample range *)

Lemma Qtruncate_bounds (x : Q) (m : Z) :
  (0 <= m)%Z -> - inject_Z m <= x <= inject_Z m ->
  (- m <= Qtruncate x <= m)%Z.
Proof.
  intros Hm [Hlo Hhi]. unfold Qtruncate. destruct x as [n d].
  unfold Qle, inject_Z in Hlo, Hhi. cbn in Hlo, Hhi. cbn [Qnum Qden].
  destruct (Z.le_gt_cases 0 n) as [Hn|Hn].
  - rewrite Z.quot_div_nonneg by lia.
    split; [pose proof (Z.div_pos n (Z.pos d)); lia|].
    apply Z.div_le_upper_bound; lia.
  - replace n with (- (- n))%Z by lia.
    rewrite Z.quot_opp_l by lia.
    rewrite Z.quot_div_nonneg by lia.
    split; [|pose proof (Z.div_pos (- n) (Z.pos d)); lia].
    assert ((- n) / Z.pos d <= m)%Z; [|lia].
    apply Z.div_le_upper_bound; lia.
Qed.

Lemma tone_sum_bounds (sin : Q -> Q) (g : nat -> Q) (l : list nat) (acc : Q) :
  (forall x, -1 <= sin x <= 1) ->
  acc - inject_Z (Z.of_nat (length l))
  <= fold_left (fun (sample : Q) (bit : nat) => sample + sin (g bit)) l acc
  <= acc + inject_Z (Z.of_nat (length l)).
Proof.
  intros Hsin. revert acc. induction l as [|b l IH]; intros acc.
  - cbn [fold_left length]. change (inject_Z (Z.of_nat 0)) with 0. Lqa.lra.
  - cbn [fold_left length]. specialize (IH (acc + sin (g b))).
    specialize (Hsin (g b)).
    rewrite Nat2Z.inj_succ. unfold Z.succ. rewrite inject_Z_plus.
    change (inject_Z 1) with 1. Lqa.lra.
Qed.

(** X18.  When [sin] stays within [-1, 1] and the amplitude within [0, 1]
    (a level of at most 0 dBFS), every sample of the multi-tone waveform
    lies within [-32767, 32767]: the conversion to [int16_t] is defined
    and does not wrap. *)
Theorem multi_tone_within_int16 (sin : Q -> Q) (pow : Q -> Q -> Q)
    (bit_value : Z -> nat -> bool) (msg : string)
    (bps level_dbfs sample_rate_khz : Q) (w : wav) :
  (forall x, -1 <= sin x <= 1) ->
  0 <= pow 10 (level_dbfs / 20) <= 1 ->
  sine_gen_with sin pow bit_value msg bps level_dbfs sample_rate_khz = inr w ->
  forall s : Z, In s (pcm w) -> (-32767 <= s <= 32767)%Z.
Proof.
  intros Hsin Hamp Hw s Hs. unfold sine_gen_with in Hw.
  destruct (binary_to_bytes msg) as [e|bytes]; [discriminate|].
  injection Hw as <-. cbn [pcm] in Hs.
  apply in_map_iff in Hs as (i & <- & _).
  unfold multi_sample.
  set (t := inject_Z (Z.of_nat i) / (sample_rate_khz * 1000)).
  set (b := bytes !!! _).
  pose proof (tone_sum_bounds sin
                (fun bit => 2 * M_PI * table_freq bit (bit_value b bit) * t)
                (seq 0 8) 0 Hsin) as Hsum.
  cbv beta in Hsum.
  set (sum := fold_left _ (seq 0 8) 0) in *.
  set (a := pow 10 (level_dbfs / 20)) in *.
  change (inject_Z (Z.of_nat (length (seq 0 8)))) with 8 in Hsum.
  apply (Qtruncate_bounds _ 32767); [lia|].
  change (inject_Z 32767) with 32767.
  assert (H8 : -1 <= sum / 8 <= 1).
  { split.
    - apply Qle_shift_div_l; Lqa.lra.
    - apply Qle_shift_div_r; Lqa.lra. }
  set (u := sum / 8) in *.
  assert (Hua : -1 <= u * a <= 1) by (split; Lqa.nra).
  split; Lqa.lra.
Qed.

Lemma multi_tone_within_int16_witness :
  List.Forall (fun s => -32767 <= s <= 32767)%Z
    (map (multi_sample (fun _ => 1) bit_value_msb [65%Z] 4410 1 44100)
         (seq 0 10)).
Proof.
  apply List.Forall_forall.
  apply (multi_tone_within_int16 (fun _ => 1) (fun _ _ => 1) bit_value_msb
           "01000001" 4410 0 44.1
           (Wav (make_header 44100 10)
                (map (multi_sample (fun _ => 1) bit_value_msb [65%Z]
                        4410 1 44100) (seq 0 10)))).
  - intros x. split; discriminate.
  - split; discriminate.
  - reflexivity.
Defined.

(** X19.  The same for the single-tone waveform. *)
Theorem single_tone_within_int16 (sin : Q -> Q) (pow : Q -> Q -> Q)
    (msg : string) (bps level_dbfs sample_rate_khz : Q) :
  (forall x, -1 <= sin x <= 1) ->
  0 <= pow 10 (level_dbfs / 20) <= 1 ->
  forall s : Z,
    In s (pcm (fst (sine_gen_tone sin pow msg bps level_dbfs sample_rate_khz)))
    -> (-32767 <= s <= 32767)%Z.
Proof.
  intros Hsin Hamp s Hs. unfold sine_gen_tone in Hs. cbn [fst pcm] in Hs.
  apply in_map_iff in Hs as (i & <- & _).
  unfold tone_sample.
  set (a := pow 10 (level_dbfs / 20)) in *.
  match goal with |- context [sin ?x] => specialize (Hsin x); set (v := sin x) in * end.
  apply (Qtruncate_bounds _ 32767); [lia|].
  change (inject_Z 32767) with 32767.
  assert (Hav : -1 <= a * v <= 1) by (split; Lqa.nra).
  split; Lqa.lra.
Qed.

Lemma single_tone_within_int16_witness :
  List.Forall (fun s => -32767 <= s <= 32767)%Z
    (pcm (fst (sine_gen_tone (fun _ => -1) (fun _ _ => 1 # 2)
                 "01" 4410 (-6) 44.1))).
Proof.
  apply List.Forall_forall.
  apply (single_tone_within_int16 (fun _ => -1) (fun _ _ => 1 # 2)).
  - intros x. split; discriminate.
  - split; discriminate.
Defined.

(** ** Header *)

(** X20.  For positive rates, and as long as the file size and twice the
    sample rate written in the header fit 32 bits, the header written by
    the multi-tone synthesizers agrees with the buffer and with itself:
    the data chunk has two bytes per sample, the RIFF size is 36 more, and
    the byte rate is twice the sample rate of the header. *)
Theorem header_matches_buffer (sin : Q -> Q) (pow : Q -> Q -> Q)
    (bit_value : Z -> nat -> bool) (msg : string)
    (bps level_dbfs sample_rate_khz : Q) (w : wav) :
  0 < bps -> 0 < sample_rate_khz ->
  sine_gen_with sin pow bit_value msg bps level_dbfs sample_rate_khz = inr w ->
  (36 + 2 * Z.of_nat (length (pcm w)) < 2 ^ 32)%Z ->
  (2 * sample_rate (header w) < 2 ^ 32)%Z ->
  data_bytes (header w) = (2 * Z.of_nat (length (pcm w)))%Z
  /\ wav_size (header w) = (36 + data_bytes (header w))%Z
  /\ byte_rate (header w) = (2 * sample_rate (header w))%Z.
Proof.
  intros Hb Hk Hw Hfit Hrate. unfold sine_gen_with in Hw.
  destruct (binary_to_bytes msg) as [e|bytes]; [discriminate|].
  injection Hw as <-. cbn [pcm header] in *.
  rewrite length_map, length_seq in Hfit.
  rewrite length_map, length_seq.
  assert (Hs : 0 < sample_rate_khz * 1000) by Lqa.lra.
  assert (Hn : (0 <= num_samples bps (length bytes) (sample_rate_khz * 1000))%Z).
  { rewrite SynthFacts.num_samples_floor by assumption.
    change 0%Z with (Qfloor 0). apply Qfloor_resp_le.
    now apply SynthFacts.total_samples_nonneg. }
  rewrite Z2Nat.id in * by exact Hn.
  assert (Hr : (0 <= Qtruncate (sample_rate_khz * 1000))%Z).
  { rewrite SynthFacts.Qtruncate_floor by Lqa.lra.
    change 0%Z with (Qfloor 0). apply Qfloor_resp_le. Lqa.lra. }
  unfold make_header in *.
  cbn [data_bytes wav_size sample_rate byte_rate] in *.
  change (16 / 8)%Z with 2%Z. unfold uint32_wrap.
  rewrite (Z.mod_small (_ * 2)) by lia.
  rewrite (Z.mod_small (36 + _)) by lia.
  rewrite (Z.mod_small (_ * 1 * 2)) by lia.
  repeat split; lia.
Qed.

Lemma header_matches_buffer_witness :
  exists w : wav,
    sine_gen (fun _ => 0) (fun _ _ => 1) "01000001" 128 (-3) 44.1 = inr w
    /\ data_bytes (header w) = 688%Z
    /\ wav_size (header w) = 724%Z
    /\ byte_rate (header w) = 88200%Z.
Proof.
  eexists. split; [reflexivity|].
  destruct (header_matches_buffer (fun _ => 0) (fun _ _ => 1) bit_value_msb
              "01000001" 128 (-3) 44.1 _ eq_refl eq_refl eq_refl
              eq_refl eq_refl) as (Hd & Hs & Hb).
  split; [exact Hd | split; [exact Hs | exact Hb]].
Defined.

(** ** Timing *)

(** X21.  In exact arithmetic the clamp of the slot index never applies: sample
    [i] of the waveform sounds byte [floor (i * bps / sample_rate)] of the
    message, which is a valid index. *)
Theorem sample_slot (bps sample_rate : Q) (count i : nat) :
  0 < bps -> 0 < sample_rate ->
  (Z.of_nat i < num_samples bps count sample_rate)%Z ->
  Z.of_nat (slot_index bps count (inject_Z (Z.of_nat i) / sample_rate))
  = Qfloor (inject_Z (Z.of_nat i) * bps / sample_rate)
  /\ (slot_index bps count (inject_Z (Z.of_nat i) / sample_rate) < count)%nat.
Proof.
  intros Hb Hs Hi.
  set (q := inject_Z (Z.of_nat i)) in *.
  assert (Hq : 0 <= q).
  { unfold q. change 0 with (inject_Z 0). rewrite <- Zle_Qle. lia. }
  assert (Hbn : ~ bps == 0) by Lqa.lra.
  assert (Hsn : ~ sample_rate == 0) by Lqa.lra.
  assert (E : q / sample_rate / (1 / bps) == q * bps / sample_rate)
    by (field; split; assumption).
  assert (Hpos : 0 <= q * bps / sample_rate).
  { apply Qle_shift_div_l; [exact Hs|]. rewrite Qmult_0_l.
    apply Qmult_le_0_compat; Lqa.lra. }
  assert (Ht : Qtruncate (q / sample_rate / (1 / bps))
               = Qfloor (q * bps / sample_rate)).
  { rewrite SynthFacts.Qtruncate_floor by (now rewrite E). now rewrite E. }
  rewrite SynthFacts.num_samples_floor in Hi by assumption.
  set (c := inject_Z (Z.of_nat count)) in *.
  assert (Hlt : q * bps / sample_rate < c).
  { assert (Hq1 : q + 1 <= c / bps * sample_rate).
    { pose proof (Qfloor_le (c / bps * sample_rate)) as Hf.
      assert (Hz : inject_Z (Z.of_nat i + 1)
                   <= inject_Z (Qfloor (c / bps * sample_rate)))
        by (rewrite <- Zle_Qle; lia).
      rewrite inject_Z_plus in Hz. change (inject_Z 1) with 1 in Hz.
      fold q in Hz. Lqa.lra. }
    apply Qlt_shift_div_r; [exact Hs|].
    assert (Hc : c / bps * sample_rate * bps == c * sample_rate)
      by (field; assumption).
    assert (Hm : (q + 1) * bps <= c / bps * sample_rate * bps)
      by (apply Qmult_le_compat_r; Lqa.lra).
    rewrite Hc in Hm. Lqa.lra. }
  assert (Hfl : (0 <= Qfloor (q * bps / sample_rate) < Z.of_nat count)%Z).
  { split.
    - change 0%Z with (Qfloor 0). now apply Qfloor_resp_le.
    - pose proof (Qfloor_le (q * bps / sample_rate)) as Hf.
      rewrite Zlt_Qlt. fold c. Lqa.lra. }
  unfold slot_index. cbv zeta. rewrite Ht.
  destruct (Z.leb_spec (Z.of_nat count) (Qfloor (q * bps / sample_rate)));
    [lia|].
  split; lia.
Qed.

Lemma sample_slot_witness :
  slot_index 2 3 (inject_Z (Z.of_nat 5) / 8) = 1%nat.
Proof.
  destruct (sample_slot 2 8 3 5 eq_refl eq_refl eq_refl) as [H _].
  apply Nat2Z.inj. rewrite H. reflexivity.
Defined.

(** ** Well-formed messages *)

Lemma substring_skip (s1 s2 : string) (i n : nat) :
  substring (String.length s1 + i) n (s1 ++ s2) = substring i n s2.
Proof. induction s1 as [|c s1 IH]; [reflexivity | exact IH]. Qed.

Lemma substring_prefix (s1 s2 : string) :
  substring 0 (String.length s1) (s1 ++ s2) = s1.
Proof.
  induction s1 as [|c s1 IH]; [now destruct s2|].
  cbn. now rewrite IH.
Qed.

Lemma substring_all (s : string) (n : nat) :
  (String.length s <= n)%nat -> substring 0 n s = s.
Proof.
  revert n. induction s as [|c s IH]; intros n Hn.
  - now destruct n.
  - destruct n as [|n]; [cbn in Hn; lia|].
    cbn. rewrite IH; [reflexivity | cbn in Hn; lia].
Qed.

Lemma string_app_length (s1 s2 : string) :
  String.length (s1 ++ s2) = (String.length s1 + String.length s2)%nat.
Proof. induction s1 as [|c s1 IH]; [reflexivity | cbn; now rewrite IH]. Qed.

Lemma digits_length (g : list bool) : String.length (digits g) = length g.
Proof.
  unfold digits. induction g as [|d g IH]; [reflexivity | cbn; now rewrite IH].
Qed.

Lemma digits_app (g1 g2 : list bool) :
  digits (g1 ++ g2) = (digits g1 ++ digits g2)%string.
Proof.
  unfold digits.
  induction g1 as [|d g1 IH]; [reflexivity | cbn; now rewrite IH].
Qed.

Lemma fold_value (g : list bool) (acc : Z) :
  fold_left (fun (acc : Z) (d : bool) => (2 * acc + Z.b2z d)%Z) g acc
  = (acc * 2 ^ Z.of_nat (length g) + group_value g)%Z
  /\ (0 <= group_value g < 2 ^ Z.of_nat (length g))%Z.
Proof.
  unfold group_value. revert acc.
  induction g as [|d g IH]; intros acc.
  - cbn. lia.
  - cbn [fold_left length]. rewrite Nat2Z.inj_succ, Z.pow_succ_r by lia.
    destruct (IH (2 * acc + Z.b2z d)%Z) as [E1 _].
    destruct (IH (2 * 0 + Z.b2z d)%Z) as [E2 Hb]. rewrite E1, E2.
    assert (Hp : (0 < 2 ^ Z.of_nat (length g))%Z) by (apply Z.pow_pos_nonneg; lia).
    destruct d; cbn [Z.b2z]; nia.
Qed.

Lemma digits2_digits (g : list bool) (acc : Z) (n : nat) :
  digits2 (digits g) acc n
  = (fold_left (fun (acc : Z) (d : bool) => (2 * acc + Z.b2z d)%Z) g acc,
     (n + length g)%nat).
Proof.
  revert acc n. induction g as [|d g IH]; intros acc n.
  - cbn. f_equal. lia.
  - destruct d; cbn [digits map digit string_of_list_ascii digits2
                     fold_left length Z.b2z].
    + change (Ascii.eqb "1" "0") with false. change (Ascii.eqb "1" "1") with true.
      cbv iota. fold (digits g). rewrite IH. f_equal. lia.
    + change (Ascii.eqb "0" "0") with true.
      cbv iota. fold (digits g). rewrite IH. f_equal; [f_equal; lia | lia].
Qed.

(** [std::stoi] on a group of 1 to 8 binary digits. *)
Lemma stoi2_digits (g : list bool) :
  (1 <= length g <= 8)%nat ->
  stoi2 (digits g) = inr (group_value g)
  /\ uint8_wrap (group_value g) = group_value g.
Proof.
  intros Hlen. destruct (fold_value g 0) as [_ Hb].
  assert (Hp : (2 ^ Z.of_nat (length g) <= 2 ^ 8)%Z)
    by (apply Z.pow_le_mono_r; lia).
  split; [|unfold uint8_wrap; apply Z.mod_small; lia].
  destruct g as [|d g]; [cbn in Hlen; lia|].
  assert (E : stoi2 (digits (d :: g))
              = let vn := digits2 (digits (d :: g)) 0%Z 0%nat in
                if (snd vn =? 0)%nat then inl invalid_argument
                else if ((fst vn <? - 2 ^ 31) || (2 ^ 31 - 1 <? fst vn))%Z
                     then inl out_of_range else inr (fst vn)).
  { destruct d; reflexivity. }
  rewrite E, digits2_digits. cbv zeta. cbn [fst snd].
  fold (group_value (d :: g)).
  destruct (Nat.eqb_spec (0 + length (d :: g)) 0); [cbn in *; lia|].
  destruct (Z.ltb_spec (group_value (d :: g)) (- 2 ^ 31)); [lia|].
  destruct (Z.ltb_spec (2 ^ 31 - 1) (group_value (d :: g))); [lia|].
  reflexivity.
Qed.

Lemma bytes_loop_skip (s1 s2 : string) (fuel i : nat) (acc : list Z) :
  String.length s1 = 8%nat ->
  bytes_loop fuel (i + 8) (s1 ++ s2) acc = bytes_loop fuel i s2 acc.
Proof.
  intros H8. revert i acc. induction fuel as [|fuel IH]; intros i acc.
  - reflexivity.
  - cbn [bytes_loop]. rewrite string_app_length, H8.
    replace (i + 8)%nat with (String.length s1 + i)%nat by lia.
    rewrite substring_skip.
    replace (String.length s1 + i)%nat with (i + 8)%nat by lia.
    destruct (Nat.ltb_spec (i + 8) (8 + String.length s2));
      destruct (Nat.ltb_spec i (String.length s2)); try lia; [|reflexivity].
    destruct (stoi2 (substring i 8 s2)); [reflexivity|].
    apply IH.
Qed.

Lemma bytes_loop_groups (gs : list (list bool)) (last : list bool)
    (fuel : nat) (acc : list Z) :
  List.Forall (fun g => length g = 8%nat) gs -> (length last <= 8)%nat ->
  (length (concat gs ++ last) <= fuel)%nat ->
  bytes_loop fuel 0 (digits (concat gs ++ last)) acc
  = inr (acc ++ map group_value gs
             ++ match last with [] => [] | _ => [group_value last] end).
Proof.
  intros Hgs Hlast. revert fuel acc.
  induction Hgs as [|g gs Hg Hgs IH]; intros fuel acc Hfuel.
  - cbn [concat map app] in *.
    destruct last as [|d last'] eqn:El.
    + rewrite app_nil_r. now destruct fuel.
    + rewrite <- El in *.
      assert (Hl : (1 <= length last <= 8)%nat) by (subst last; cbn in *; lia).
      destruct fuel as [|fuel]; [lia|].
      cbn [bytes_loop]. rewrite digits_length.
      destruct (Nat.ltb_spec 0 (length last)); [|lia].
      rewrite substring_all by (rewrite digits_length; lia).
      destruct (stoi2_digits last Hl) as [-> ->].
      destruct fuel as [|fuel]; [reflexivity|].
      cbn [bytes_loop]. rewrite digits_length.
      destruct (Nat.ltb_spec (0 + 8) (length last)); [lia | reflexivity].
  - cbn [concat map]. rewrite <- List.app_assoc, digits_app.
    cbn [concat] in Hfuel. rewrite <- List.app_assoc, length_app in Hfuel.
    destruct fuel as [|fuel]; [lia|].
    cbn [bytes_loop]. rewrite string_app_length, digits_length, Hg.
    cbn [Nat.add Nat.ltb Nat.leb].
    pose proof (substring_prefix (digits g) (digits (concat gs ++ last))) as Hp.
    rewrite digits_length, Hg in Hp. rewrite Hp.
    destruct (stoi2_digits g ltac:(lia)) as [-> ->].
    rewrite (bytes_loop_skip (digits g) _ fuel 0) by (now rewrite digits_length).
    rewrite IH by lia.
    now rewrite <- List.app_assoc.
Qed.

(** X22.  A message of binary digits only is cut into groups of eight from the
    left; each group becomes the byte it denotes, most significant digit
    first, and a final group of fewer than eight digits becomes the small
    number it denotes (its digits are the low bits of the byte). *)
Theorem binary_to_bytes_groups (gs : list (list bool)) (last : list bool) :
  List.Forall (fun g => length g = 8%nat) gs -> (length last < 8)%nat ->
  binary_to_bytes (digits (concat gs ++ last))
  = inr (map group_value gs
         ++ match last with [] => [] | _ => [group_value last] end)
  /\ List.Forall (fun b => 0 <= b < 256)%Z (map group_value gs)
  /\ (0 <= group_value last < 2 ^ Z.of_nat (length last))%Z.
Proof.
  intros Hgs Hlast. split; [|split].
  - unfold binary_to_bytes.
    rewrite (bytes_loop_groups gs last _ []) by
      (try assumption; try lia; now rewrite digits_length).
    reflexivity.
  - apply List.Forall_forall. intros b Hb.
    apply in_map_iff in Hb as (g & <- & Hg).
    rewrite List.Forall_forall in Hgs. specialize (Hgs g Hg).
    destruct (fold_value g 0) as [_ Hv]. rewrite Hgs in Hv. exact Hv.
  - apply (fold_value last 0).
Qed.

Lemma binary_to_bytes_groups_witness :
  binary_to_bytes "010000011" = inr [65%Z; 1%Z].
Proof.
  apply (binary_to_bytes_groups
           [[false; true; false; false; false; false; false; true]] [true]).
  - apply List.Forall_cons; [reflexivity | apply List.Forall_nil].
  - cbn. lia.
Defined.

Lemma byte_bools_value_all :
  forallb (fun b => (group_value (byte_bools b) =? b)%Z)
          (map Z.of_nat (seq 0 256))
  = true.
Proof. vm_compute. reflexivity. Qed.

Lemma byte_bools_value (b : Z) :
  (0 <= b < 256)%Z -> group_value (byte_bools b) = b.
Proof.
  intros Hb. pose proof byte_bools_value_all as Hall.
  rewrite forallb_forall in Hall.
  apply Z.eqb_eq, Hall.
  rewrite <- (Z2Nat.id b) by lia.
  apply in_map, in_seq. lia.
Qed.

Lemma binary_to_bits_digits (g : list bool) :
  binary_to_bits (digits g) = (g, []).
Proof.
  rewrite SynthFacts.binary_to_bits_spec. unfold digits.
  rewrite list_ascii_of_string_of_list_ascii.
  induction g as [|d g IH]; [reflexivity|].
  injection IH as IH1 IH2.
  destruct d; cbn; now rewrite IH1, IH2.
Qed.

(** X23.  Both front ends read a message spelled byte by byte, eight digits per
    byte and most significant digit first, as intended:
    [binary_to_bytes] returns the bytes, [binary_to_bits] their bits in
    order, without a warning. *)
Theorem spelled_message_parsed (bytes : list Z) :
  List.Forall (fun b => 0 <= b < 256)%Z bytes ->
  binary_to_bytes (spell bytes) = inr bytes
  /\ binary_to_bits (spell bytes) = (concat (map byte_bools bytes), []).
Proof.
  intros Hbytes. split.
  - unfold spell, binary_to_bytes.
    rewrite <- (app_nil_r (concat (map byte_bools bytes))).
    rewrite (bytes_loop_groups (map byte_bools bytes) [] _ []).
    + cbn [app]. rewrite app_nil_r, map_map. f_equal.
      rewrite <- (map_id bytes) at 2. apply map_ext_in.
      intros b Hb. rewrite List.Forall_forall in Hbytes.
      apply byte_bools_value. now apply Hbytes.
    + apply List.Forall_forall. intros g Hg.
      apply in_map_iff in Hg as (b & <- & _). reflexivity.
    + cbn. lia.
    + now rewrite digits_length.
  - apply binary_to_bits_digits.
Qed.

Lemma spelled_message_parsed_witness :
  binary_to_bytes "0100100001101001" = inr [72%Z; 105%Z].
Proof.
  apply (spelled_message_parsed [72%Z; 105%Z]).
  apply List.Forall_cons; [lia | apply List.Forall_cons; [lia | apply List.Forall_nil]].
Defined.

End SynthMore.

(** * More on the single-tone analyzers *)

Module SingleToneMore.
Import Session SingleTone SingleToneSession Spelling.

(** ** Bits from tones *)

(** X24.  The single-tone analyzer reads the generator's tone for a bit as that
    bit, also when the dominant frequency is measured up to 100 Hz too
    low; measured above the nominal frequency (by less than 900 Hz) it
    yields no bit at all. *)
Theorem tone_band (bit : bool) (delta : Q) :
  ((-100 <= delta <= 0)%Q ->
     tone_bits ((if bit then Synth.freq_1 else Synth.freq_0) + delta)
     = [Z.b2z bit])
  /\ ((0 < delta < 900)%Q ->
        tone_bits ((if bit then Synth.freq_1 else Synth.freq_0) + delta) = []).
Proof.
  unfold tone_bits, Synth.freq_0, Synth.freq_1.
  split; intros Hd;
    destruct bit;
    repeat match goal with
           | |- context [Qle_bool ?a ?b] =>
               let E := fresh "E" in
               destruct (Qle_bool a b) eqn:E;
               [apply Qle_bool_iff in E
               |assert (~ (a <= b)%Q)
                  by (intros Hc; apply Qle_bool_iff in Hc; congruence);
                clear E]
           end;
    cbn [andb app Z.b2z]; try reflexivity; exfalso; Lqa.lra.
Qed.

Lemma tone_band_witness :
  tone_bits (Synth.freq_1 + (-40)) = [1%Z]
  /\ tone_bits (Synth.freq_0 + 1) = [].
Proof.
  split.
  - apply (proj1 (tone_band true (-40))). split; discriminate.
  - apply (proj2 (tone_band false 1)). split; reflexivity.
Defined.

(** ** Characters from bits *)

Lemma pack_ascii_short (tail : list Z) :
  (length tail < 8)%nat -> pack_ascii tail = [].
Proof.
  intros Hl.
  do 8 (destruct tail as [|? tail]; [reflexivity|]).
  cbn in Hl. lia.
Qed.

Lemma pack_byte_all :
  forallb
    (fun b =>
       match pack_ascii (map Z.b2z (byte_bools b)) with
       | [c] => (c =? char_of_int b)%Z
       | _ => false
       end)
    (map Z.of_nat (seq 0 256))
  = true.
Proof. vm_compute. reflexivity. Qed.

Lemma pack_byte (b : Z) (rest : list Z) :
  (0 <= b < 256)%Z ->
  pack_ascii (map Z.b2z (byte_bools b) ++ rest)
  = char_of_int b :: pack_ascii rest.
Proof.
  intros Hb. pose proof pack_byte_all as Hall.
  rewrite forallb_forall in Hall.
  assert (Hin : In b (map Z.of_nat (seq 0 256))).
  { rewrite <- (Z2Nat.id b) by lia. apply in_map, in_seq. lia. }
  specialize (Hall b Hin).
  unfold byte_bools in *. cbn [seq map app] in *.
  cbn [pack_ascii] in *.
  apply Z.eqb_eq in Hall. now rewrite Hall.
Qed.

Lemma pack_ascii_bytes (bytes : list Z) (tail : list Z) :
  List.Forall (fun b => 0 <= b < 256)%Z bytes -> (length tail < 8)%nat ->
  pack_ascii (map Z.b2z (concat (map byte_bools bytes)) ++ tail)
  = map char_of_int bytes.
Proof.
  intros Hbytes Htail. induction Hbytes as [|b bytes Hb Hbytes IH].
  - now apply pack_ascii_short.
  - cbn [map concat]. rewrite map_app, <- List.app_assoc.
    rewrite pack_byte by exact Hb. now rewrite IH.
Qed.

(** X25.  A message spelled byte by byte, sent bit by bit at the generator's
    two frequencies and read back tone by tone, is decoded to its bytes
    (as [char]s); up to seven digits left over at the end are sent but
    decoded to nothing. *)
Theorem single_tone_roundtrip (bytes : list Z) (tail : list bool) :
  List.Forall (fun b => 0 <= b < 256)%Z bytes -> (length tail < 8)%nat ->
  pack_ascii
    (concat
       (map (fun bit : bool =>
               tone_bits (if bit then Synth.freq_1 else Synth.freq_0))
            (fst (Synth.binary_to_bits (spell bytes ++ digits tail)))))
  = map char_of_int bytes.
Proof.
  intros Hbytes Htail. unfold spell.
  rewrite <- SynthMore.digits_app, SynthMore.binary_to_bits_digits.
  cbn [fst].
  assert (E : forall g : list bool,
             concat (map (fun bit : bool =>
                            tone_bits (if bit then Synth.freq_1
                                       else Synth.freq_0)) g)
             = map Z.b2z g).
  { induction g as [|d g IH]; [reflexivity|].
    cbn [map concat]. rewrite IH. now destruct d. }
  rewrite E, map_app.
  apply pack_ascii_bytes; [exact Hbytes | now rewrite length_map].
Qed.

Lemma single_tone_roundtrip_witness :
  pack_ascii
    (concat
       (map (fun bit : bool =>
               tone_bits (if bit then Synth.freq_1 else Synth.freq_0))
            (fst (Synth.binary_to_bits "0100100001101001101"))))
  = [72%Z; 105%Z].
Proof.
  apply (single_tone_roundtrip [72%Z; 105%Z] [true; false; true]).
  - apply List.Forall_cons;
      [lia | apply List.Forall_cons; [lia | apply List.Forall_nil]].
  - cbn. lia.
Defined.

(** ** The first version's conversion *)

(** X26.  The first version reads the eight bits as a decimal number before the
    conversion to [char]: the character is the intended one exactly when
    bits 1, 2, 3 and 5 (counted from the least significant) are zero, as
    in 01000001. *)
Theorem decimal_reading (g : list bool) :
  length g = 8%nat ->
  decode_decimal (map Z.b2z g) = inr (char_of_int (group_value g))
  <-> (g !!! 2%nat = false /\ g !!! 4%nat = false
       /\ g !!! 5%nat = false /\ g !!! 6%nat = false).
Proof.
  intros Hl.
  do 8 (destruct g as [|? g]; [discriminate|]).
  destruct g; [clear Hl|discriminate].
  destruct b, b0, b1, b2, b3, b4, b5, b6;
    (split;
     [ intros Hd;
       first [ vm_compute in Hd; congruence
             | repeat split; reflexivity ]
     | intros (H2 & H4 & H5 & H6);
       first [ vm_compute; reflexivity
             | cbn in H2, H4, H5, H6; congruence ] ]).
Qed.

Lemma decimal_reading_witness :
  decode_decimal [0; 1; 0; 0; 0; 0; 0; 1]%Z = inr 65%Z
  /\ ~ decode_decimal [0; 1; 0; 0; 0; 0; 1; 0]%Z = inr 66%Z.
Proof.
  split.
  - apply (proj2 (decimal_reading
                    [false; true; false; false; false; false; false; true]
                    eq_refl)).
    split; [reflexivity | split; [reflexivity | split; reflexivity]].
  - intros Hd.
    destruct (proj1 (decimal_reading
                       [false; true; false; false; false; false; true; false]
                       eq_refl) Hd) as (_ & _ & _ & H6).
    discriminate H6.
Defined.

(** ** The loop *)

Lemma tone_bits_shape (f : Q) :
  tone_bits f = [] \/ tone_bits f = [0%Z] \/ tone_bits f = [1%Z].
Proof.
  unfold tone_bits.
  destruct (Qle_bool 900 f) eqn:E1, (Qle_bool f 1000) eqn:E2,
           (Qle_bool 1900 f) eqn:E3, (Qle_bool f 2000) eqn:E4;
    cbn [andb app]; auto.
  apply Qle_bool_iff in E2, E3. exfalso. Lqa.lra.
Qed.

Lemma pack_ascii_length_le (n : nat) (l : list Z) :
  (length l <= n)%nat -> length (pack_ascii l) = (length l / 8)%nat.
Proof.
  revert l. induction n as [|n IH]; intros l Hl.
  - destruct l; [reflexivity | cbn in Hl; lia].
  - do 8 (destruct l as [|? l]; [reflexivity|]).
    cbn [pack_ascii length] in *. rewrite IH by lia. lia.
Qed.

Section Run.
Context {C : Type} `{Transform.ComplexOps C}.
Variable cabs : C -> Q.
Variable complex_of_real : Q -> C.
Variables chunk_size min_samples numChannels : nat.
Variable sampleRate : Z.

Lemma run_bits (reads : list read_result) (st : state) :
  exists more : list Z,
    msg (run cabs complex_of_real chunk_size min_samples numChannels
             sampleRate reads st)
    = msg st ++ more
    /\ (length more <= decoded_windows min_samples reads)%nat
    /\ List.Forall (fun b => b = 0%Z \/ b = 1%Z) more.
Proof.
  revert st. induction reads as [|rd reads IH]; intros st.
  - exists []. cbn. rewrite app_nil_r. auto.
  - cbn [run decoded_windows].
    destruct (0 <? readSamples rd)%nat;
      [|exists []; cbn; rewrite app_nil_r; auto].
    destruct (IH (cycle cabs complex_of_real chunk_size min_samples
                        numChannels sampleRate st rd))
      as (more & E & Hlen & Hbits).
    rewrite E. unfold cycle.
    destruct (readSamples rd <? min_samples)%nat; cbn [msg].
    + exists more. auto.
    + unfold window_bits.
      match goal with |- context [tone_bits ?f] =>
        destruct (tone_bits_shape f) as [-> | [-> | ->]] end.
      * exists more. rewrite app_nil_r. repeat split; [lia | exact Hbits].
      * exists (0%Z :: more). rewrite <- List.app_assoc.
        repeat split; [cbn [length]; lia|].
        apply List.Forall_cons; auto.
      * exists (1%Z :: more). rewrite <- List.app_assoc.
        repeat split; [cbn [length]; lia|].
        apply List.Forall_cons; auto.
Qed.

End Run.

(** X27.  Every processed window adds at most one bit, a 0 or a 1, to the
    message, and eight bits make a character: the text has at most one
    character per eight windows of at least [MIN_SAMPLES] frames. *)
Theorem one_bit_per_window (C : Type) (ops : Transform.ComplexOps C)
    (cabs : C -> Q) (complex_of_real : Q -> C) (numChannels : nat)
    (sampleRate : Z) (reads : list read_result) :
  List.Forall (fun b => b = 0%Z \/ b = 1%Z)
    (decoded_bits cabs complex_of_real CHUNK_SIZE MIN_SAMPLES numChannels
                  sampleRate reads)
  /\ (length (decoded_bits cabs complex_of_real CHUNK_SIZE MIN_SAMPLES
                           numChannels sampleRate reads)
      <= decoded_windows MIN_SAMPLES reads)%nat
  /\ (length (decoded_text cabs complex_of_real CHUNK_SIZE MIN_SAMPLES
                           numChannels sampleRate reads)
      <= decoded_windows MIN_SAMPLES reads / 8)%nat.
Proof.
  unfold decoded_text, decoded_bits.
  destruct (run_bits cabs complex_of_real CHUNK_SIZE MIN_SAMPLES numChannels
              sampleRate reads
              (initial_state CHUNK_SIZE numChannels))
    as (more & E & Hlen & Hbits).
  rewrite E. cbn [initial_state msg app].
  rewrite (pack_ascii_length_le (length more)) by lia.
  repeat split; [exact Hbits | exact Hlen |].
  apply Nat.Div0.div_le_mono. exact Hlen.
Qed.

End SingleToneMore.

(** * More on the transform *)

Module TransformMore.
Import Transform TransformFacts Dft.

(** ** Odd lengths *)

Section Generic.
Context {C : Type} `{ComplexOps C}.

Lemma fill_ext_lt {A : Type} (g1 g2 : nat -> A) (n : nat) (l : list A) :
  (forall i, (i < n)%nat -> g1 i = g2 i) ->
  Loops.fill g1 n l = Loops.fill g2 n l.
Proof.
  intros Hg. induction n as [|n IH]; [reflexivity|].
  rewrite !ArrayLoops.fill_S.
  rewrite IH by (intros; apply Hg; lia).
  rewrite (Hg n) by lia. reflexivity.
Qed.

Lemma split_loop_last (data : list C) (v : C) :
  Nat.odd (length data) = true ->
  split_loop (<[(length data - 1)%nat := v]> data) (length data)
  = split_loop data (length data).
Proof.
  intros Hodd. rewrite !split_loop_eq.
  apply Nat.odd_spec in Hodd as [h Hh].
  f_equal; apply fill_ext_lt; intros i Hi;
    apply list_lookup_total_insert_ne; lia.
Qed.

Lemma combine_loop_same (even odd d1 d2 : list C) (k : nat) :
  length d1 = length d2 ->
  (k < length d1 / 2 + length d1 / 2)%nat ->
  combine_loop even odd d1 (length d1) !! k
  = combine_loop even odd d2 (length d2) !! k.
Proof.
  intros Hlen Hk.
  rewrite !list_lookup_lookup_total_lt by (rewrite combine_loop_length; lia).
  f_equal.
  destruct (Nat.lt_ge_cases k (length d1 / 2)) as [Hlow|Hhigh].
  - rewrite !combine_loop_low by lia. now rewrite Hlen.
  - replace k with (k - length d1 / 2 + length d1 / 2)%nat at 1 by lia.
    replace k with (k - length d2 / 2 + length d2 / 2)%nat at 2
      by (rewrite <- Hlen; lia).
    rewrite !combine_loop_high by lia. now rewrite Hlen.
Qed.

(** X28.  On a window of odd length the last sample takes no part in the
    transform: it is returned in place, and no other bin depends on it.
    (Only the first [2 * (N / 2)] entries are split and combined.) *)
Theorem odd_length_drops_last (data : list C) (v : C) :
  Nat.odd (length data) = true ->
  fft data !! (length data - 1)%nat = data !! (length data - 1)%nat
  /\ forall k : nat, (k < length data - 1)%nat ->
       fft (<[(length data - 1)%nat := v]> data) !! k = fft data !! k.
Proof.
  intros Hodd.
  destruct (Nat.le_gt_cases (length data) 1) as [Hle|Hgt].
  - rewrite !fft_base by (rewrite ?length_insert; exact Hle).
    split; [reflexivity | intros k Hk; lia].
  - pose proof (split_loop_last data v Hodd) as Hsplit.
    apply Nat.odd_spec in Hodd as [h Hh].
    split.
    + rewrite fft_step by exact Hgt.
      apply combine_loop_rest. lia.
    + intros k Hk.
      pose proof (length_insert data (length data - 1) v) as Hlen2.
      set (d2 := <[(length data - 1)%nat := v]> data) in *.
      assert (Hs2 : split_loop d2 (length d2) = split_loop data (length data))
        by (rewrite Hlen2; exact Hsplit).
      rewrite (fft_step data) by exact Hgt.
      rewrite (fft_step d2) by (now rewrite Hlen2).
      rewrite Hs2.
      apply combine_loop_same; [exact Hlen2 | lia].
Qed.

End Generic.

Lemma odd_length_drops_last_witness :
  @fft _ QC4_ops [(1, 0); (2, 0); (7, 0)]%Q !! 2%nat = Some (7, 0)%Q
  /\ @fft _ QC4_ops [(1, 0); (2, 0); (9, 0)]%Q !! 1%nat
     = @fft _ QC4_ops [(1, 0); (2, 0); (7, 0)]%Q !! 1%nat.
Proof.
  destruct (@odd_length_drops_last _ QC4_ops [(1, 0); (2, 0); (7, 0)]%Q
              (9, 0)%Q eq_refl) as [Hlast Hrest].
  split; [exact Hlast | exact (Hrest 1%nat ltac:(cbn; lia))].
Defined.

(** ** Powers of two: the transform is the discrete Fourier transform *)

Section Fourier.
#[local] Open Scope R_scope.



Lemma RCsum_add_scaled (c : RC) (f g : nat -> RC) (n : nat) :
  RCsum (fun j => RCadd (f j) (RCmul c (g j))) n
  = RCadd (RCsum f n) (RCmul c (RCsum g n)).
Proof.
  induction n as [|n IH].
  - cbn. unfold RCadd, RCmul. cbn. f_equal; ring.
  - cbn [RCsum]. rewrite IH.
    unfold RCadd, RCmul. cbn [fst snd]. f_equal; ring.
Qed.

Lemma RCsum_sub_scaled (c : RC) (f g : nat -> RC) (n : nat) :
  RCsum (fun j => RCsub (f j) (RCmul c (g j))) n
  = RCsub (RCsum f n) (RCmul c (RCsum g n)).
Proof.
  induction n as [|n IH].
  - cbn. unfold RCsub, RCmul. cbn. f_equal; ring.
  - cbn [RCsum]. rewrite IH.
    unfold RCadd, RCsub, RCmul. cbn [fst snd]. f_equal; ring.
Qed.














End Fourier.


End TransformMore.

(** * The command line *)

Module CliFacts.
Import Synth Spelling Cli.
#[local] Open Scope Q_scope.

Lemma default_rate_samples (count : nat) :
  num_samples 1 count (44.1 * 1000) = (44100 * Z.of_nat count)%Z.
Proof.
  rewrite SynthFacts.num_samples_floor by reflexivity.
  assert (E : inject_Z (Z.of_nat count) / 1 * (44.1 * 1000)
              == inject_Z (44100 * Z.of_nat count)).
  { rewrite inject_Z_mult. change (inject_Z 44100) with 44100. field. }
  rewrite E. apply Qfloor_Z.
Qed.

(** X30.  With only [-m] given (one byte per second, 44.1 kHz, default file
    name) and a message of binary digits, the waveform lasts one second
    per started group of eight digits, but the default file name counts
    the complete groups only. *)
Theorem default_name_counts_full_groups (sin : Q -> Q) (pow : Q -> Q -> Q)
    (scan_doubles : string -> list Q)
    (gs : list (list bool)) (last : list bool) :
  List.Forall (fun g => length g = 8%nat) gs -> (length last < 8)%nat ->
  (0 < length gs + length last)%nat ->
  exists w : wav,
    main sin pow scan_doubles ["-m"%string; digits (concat gs ++ last)]
    = generated (inr (Z.of_nat (length gs))) w
    /\ Z.of_nat (length (pcm w))
       = (44100 * (Z.of_nat (length gs)
                   + match last with [] => 0 | _ => 1 end))%Z.
Proof.
  intros Hgs Hlast Hne.
  assert (Hcat : length (concat gs) = (8 * length gs)%nat).
  { clear Hne. induction Hgs as [|g gs Hg Hgs IH]; [reflexivity|].
    cbn [concat length]. rewrite length_app, IH, Hg. lia. }
  assert (Hlen : String.length (digits (concat gs ++ last))
                 = (8 * length gs + length last)%nat)
    by (now rewrite SynthMore.digits_length, length_app, Hcat).
  unfold main. cbn [parse String.eqb Ascii.eqb Bool.eqb msg bps level_dbfs
                    sample_rate_khz output_file defaults String.length].
  cbv zeta. rewrite Hlen.
  destruct (Nat.eqb_spec (8 * length gs + length last) 0); [lia|].
  cbn [Nat.eqb].
  replace ((8 * length gs + length last) / 8)%nat with (length gs) by lia.
  assert (Hname : Qtruncate (1 / 1 * inject_Z (Z.of_nat (length gs)))
                  = Z.of_nat (length gs)).
  { unfold Qtruncate. cbn. rewrite Z.quot_1_r.
    now destruct (Z.of_nat (length gs)). }
  rewrite Hname.
  unfold sine_gen, sine_gen_with, binary_to_bytes.
  rewrite (SynthMore.bytes_loop_groups gs last _ [])
    by (try assumption; try lia; now rewrite SynthMore.digits_length).
  cbn [app]. eexists. split; [reflexivity|].
  cbn [pcm]. rewrite length_map, length_seq, default_rate_samples.
  rewrite Z2Nat.id by lia.
  rewrite length_app, length_map.
  destruct last; cbn [length]; lia.
Qed.

Lemma default_name_counts_full_groups_witness :
  exists w : wav,
    main (fun _ => 0) (fun _ _ => 1) (fun _ => []) ["-m"; "010000011"]%string
    = generated (inr 1%Z) w
    /\ Z.of_nat (length (pcm w)) = 88200%Z.
Proof.
  apply (default_name_counts_full_groups (fun _ => 0) (fun _ _ => 1)
           (fun _ => [])
           [[false; true; false; false; false; false; false; true]] [true]).
  - apply List.Forall_cons; [reflexivity | apply List.Forall_nil].
  - cbn. lia.
  - cbn. lia.
Defined.

End CliFacts.

(** * The tolerance boundary, on the outputs of the classifier *)

Module Tolerance.
Import Classifier ClassifierFacts ClassifierMore.
#[local] Open Scope Q_scope.

Lemma far_from_le (f t t' : Q) :
  Qabs (f - t) <= 50 -> 200 <= Qabs (t - t') -> 50 <= Qabs (f - t').
Proof.
  intros H1 H2. apply Qabs_Qle_condition in H1. destruct H1 as [H1 H1'].
  revert H2. apply (Qabs_case (t - t')); intros Hs H2;
    apply (Qabs_case (f - t')); intros Hs'; Lqa.lra.
Qed.

Lemma entry_separated (i j : nat) (v v' : bool) :
  (i < 8)%nat -> (j < 8)%nat -> (i, v) <> (j, v') ->
  200 <= Qabs ((if v then snd (bitFrequencyPairs !!! i)
                else fst (bitFrequencyPairs !!! i))
               - (if v' then snd (bitFrequencyPairs !!! j)
                  else fst (bitFrequencyPairs !!! j))).
Proof.
  intros Hi Hj Hne.
  do 8 (destruct i as [|i];
        [do 8 (destruct j as [|j];
               [destruct v, v';
                first [now elim Hne | vm_compute; discriminate]|]);
         lia|]).
  lia.
Qed.

(** A frequency at most 50 Hz from one table tone, and not strictly
    within 50 Hz of it, is within tolerance of no table tone at all. *)
Lemma boundary_out_of_band (i : nat) (v : bool) (f : Q) :
  (i < 8)%nat ->
  Qabs (f - (if v then snd (bitFrequencyPairs !!! i)
             else fst (bitFrequencyPairs !!! i))) == 50 ->
  forall j, (j < 8)%nat -> ~ in_tolerance (bitFrequencyPairs !!! j) f.
Proof.
  intros Hi Hd j Hj.
  assert (Hall : forall v' : bool,
             50 <= Qabs (f - (if v' then snd (bitFrequencyPairs !!! j)
                              else fst (bitFrequencyPairs !!! j)))).
  { intros v'. destruct (decide ((i, v) = (j, v'))) as [E|Hne].
    - inversion E; subst j v'. rewrite Hd. apply Qle_refl.
    - eapply far_from_le; [rewrite Hd; apply Qle_refl|].
      now apply entry_separated. }
  intros [H0|H1].
  - pose proof (Hall false) as H. cbv iota in H. Lqa.lra.
  - pose proof (Hall true) as H. cbv iota in H. Lqa.lra.
Qed.

(** What the scan of one position reports. *)
Lemma scan_fold_report (pair : Q * Q) (freqs : list Q) :
  let r := fold_left (scan_step pair) freqs scan_init in
  (forall f, In f freqs -> Qabs (f - fst pair) < 50 ->
     minDiff r <= Qabs (f - fst pair))
  /\ (forall f, In f freqs -> Qabs (f - snd pair) < 50 ->
     minDiff r <= Qabs (f - snd pair))
  /\ (bit0Detected r = true ->
      In (closestFreq r) freqs /\ minDiff r = Qabs (closestFreq r - fst pair))
  /\ (bit1Detected r = true ->
      In (closestFreq r) freqs /\ minDiff r = Qabs (closestFreq r - snd pair)).
Proof.
  cbv zeta. induction freqs as [|f freqs IH] using rev_ind.
  - cbn. repeat split; intros; try contradiction; discriminate.
  - rewrite fold_left_app. cbn [fold_left].
    set (st := fold_left (scan_step pair) freqs scan_init) in *.
    destruct IH as (IH0 & IH1 & IHb0 & IHb1).
    destruct (scan_step_props pair st f) as (Hmono & H0 & H1 & Hb0 & Hb1).
    repeat apply conj.
    + intros g Hg Hlt. apply in_app_or in Hg as [Hg|[<-|[]]].
      * eapply Qle_trans; [exact Hmono | now apply IH0].
      * now apply H0.
    + intros g Hg Hlt. apply in_app_or in Hg as [Hg|[<-|[]]].
      * eapply Qle_trans; [exact Hmono | now apply IH1].
      * now apply H1.
    + intros Hb. destruct (Hb0 Hb) as [[Hc Hm]|Heq].
      * rewrite Hc, Hm. split; [|reflexivity].
        apply in_or_app. right. now left.
      * rewrite Heq in *. destruct (IHb0 Hb) as [Hin Hm].
        split; [apply in_or_app; now left | exact Hm].
    + intros Hb. destruct (Hb1 Hb) as [[Hc Hm]|Heq].
      * rewrite Hc, Hm. split; [|reflexivity].
        apply in_or_app. right. now left.
      * rewrite Heq in *. destruct (IHb1 Hb) as [Hin Hm].
        split; [apply in_or_app; now left | exact Hm].
Qed.

(** A frequency strictly within 50 Hz of a tone of position [i] makes the
    position report a match: a detected frequency, at least as close to
    the tone of the bit value it resolves. *)
Lemma position_accepts (i : nat) (freqs : list Q) (f : Q) (v : bool) :
  In f freqs ->
  Qabs (f - (if v then snd (bitFrequencyPairs !!! i)
             else fst (bitFrequencyPairs !!! i))) < 50 ->
  In (closestFreq (scan_position i freqs)) freqs
  /\ Qabs (closestFreq (scan_position i freqs)
           - (if bit1Detected (scan_position i freqs)
              then snd (bitFrequencyPairs !!! i)
              else fst (bitFrequencyPairs !!! i)))
     <= Qabs (f - (if v then snd (bitFrequencyPairs !!! i)
                   else fst (bitFrequencyPairs !!! i))).
Proof.
  intros Hin Hd.
  destruct (scan_fold_report (bitFrequencyPairs !!! i) freqs)
    as (H0 & H1 & Hb0 & Hb1).
  fold (scan_position i freqs) in *.
  assert (Hmin : minDiff (scan_position i freqs)
                 <= Qabs (f - (if v then snd (bitFrequencyPairs !!! i)
                               else fst (bitFrequencyPairs !!! i)))).
  { destruct v; [now apply H1 | now apply H0]. }
  destruct (scan_position_inv i freqs) as [Heq|[Hx Hlt]].
  - exfalso. rewrite Heq in Hmin. cbn [minDiff scan_init] in Hmin. Lqa.lra.
  - destruct (bit1Detected (scan_position i freqs)) eqn:E1.
    + destruct (Hb1 eq_refl) as [Hc Hm]. split; [exact Hc|].
      now rewrite <- Hm.
    + destruct (bit0Detected (scan_position i freqs)) eqn:E0;
        [|discriminate Hx].
      destruct (Hb0 eq_refl) as [Hc Hm]. split; [exact Hc|].
      now rewrite <- Hm.
Qed.

(** The same frequency as the only candidate of the position: it is the
    match. *)
Lemma scan_sole (pair : Q * Q) (f : Q) (v : bool) (freqs : list Q) :
  Qabs (f - (if v then snd pair else fst pair)) < 50 ->
  50 <= Qabs (f - (if v then fst pair else snd pair)) ->
  (forall g, In g freqs -> g = f \/ ~ in_tolerance pair g) ->
  forall st,
    (st = scan_init \/
     st = Scan (negb v) v f (Qabs (f - (if v then snd pair else fst pair)))) ->
    (st = scan_init -> In f freqs) ->
    fold_left (scan_step pair) freqs st
    = Scan (negb v) v f (Qabs (f - (if v then snd pair else fst pair))).
Proof.
  intros Hd Hfar. induction freqs as [|g freqs IH]; intros Hall st Hst Hin.
  - cbn [fold_left]. destruct Hst as [-> | ->]; [|reflexivity].
    destruct (Hin eq_refl).
  - cbn [fold_left].
    destruct (Hall g (or_introl eq_refl)) as [-> | Hout].
    + apply IH.
      * intros h Hh. apply Hall. now right.
      * right. unfold scan_step. destruct Hst as [-> | ->]; destruct v.
        -- rewrite step0_reject by exact Hfar.
           apply step1_accept; [exact Hd|].
           cbn [minDiff scan_init]. Lqa.lra.
        -- rewrite (step0_accept pair scan_init f)
             by (try exact Hd; cbn [minDiff scan_init]; Lqa.lra).
           now rewrite step1_reject by exact Hfar.
        -- rewrite step0_reject by exact Hfar.
           unfold step1. cbn [minDiff].
           rewrite (proj2 (Qltb_ge _ _) (Qle_refl _)).
           now rewrite andb_false_r.
        -- unfold step0 at 1. cbn [minDiff].
           rewrite (proj2 (Qltb_ge _ _) (Qle_refl _)).
           rewrite andb_false_r.
           now rewrite step1_reject by exact Hfar.
      * intros E. exfalso. unfold scan_step in E.
        destruct Hst as [-> | ->]; destruct v.
        -- rewrite step0_reject in E by exact Hfar.
           rewrite step1_accept in E
             by (try exact Hd; cbn [minDiff scan_init]; Lqa.lra).
           discriminate E.
        -- rewrite (step0_accept pair scan_init f) in E
             by (try exact Hd; cbn [minDiff scan_init]; Lqa.lra).
           rewrite step1_reject in E by exact Hfar. discriminate E.
        -- rewrite step0_reject in E by exact Hfar.
           unfold step1 in E. cbn [minDiff] in E.
           rewrite (proj2 (Qltb_ge _ _) (Qle_refl _)) in E.
           rewrite andb_false_r in E. discriminate E.
        -- unfold step0 in E at 1. cbn [minDiff] in E.
           rewrite (proj2 (Qltb_ge _ _) (Qle_refl _)) in E.
           rewrite andb_false_r in E.
           rewrite step1_reject in E by exact Hfar. discriminate E.
    + rewrite scan_step_reject by exact Hout.
      apply IH.
      * intros h Hh. apply Hall. now right.
      * exact Hst.
      * intros E. destruct (Hin E) as [<-|Hf]; [|exact Hf].
        exfalso. apply Hout. destruct v; [now right | now left].
Qed.

(** C3.  For table position [i]: a detected frequency at exactly 50 Hz
    from a tone is rejected for that tone (the test is a strict
    less-than), in every state of the scan, and its presence changes
    neither the resolved bits, nor the reported frequencies, nor the
    byte; a detected frequency strictly within 50 Hz of a tone (49.9 Hz
    away, for one) is accepted: in the scan unless a closer match was
    already recorded, and in the result the position reports a detected
    frequency at least as close to the tone of the bit value it resolves,
    which is this frequency and the bit value of its tone when no other
    candidate is within tolerance of the position; and when no detected
    frequency is strictly within 50 Hz of either tone, nothing is recorded
    and the bit resolves to 0. *)
Theorem tolerance_boundary (i : nat) (freqs : list Q) :
  (i < 8)%nat ->
  (forall st f, Qabs (f - fst (bitFrequencyPairs !!! i)) == 50 ->
     step0 (bitFrequencyPairs !!! i) st f = st)
  /\ (forall st f, Qabs (f - snd (bitFrequencyPairs !!! i)) == 50 ->
     step1 (bitFrequencyPairs !!! i) st f = st)
  /\ (forall st f, Qabs (f - fst (bitFrequencyPairs !!! i)) == 49.9 ->
     49.9 < minDiff st ->
     step0 (bitFrequencyPairs !!! i) st f
     = Scan true false f (Qabs (f - fst (bitFrequencyPairs !!! i))))
  /\ (forall st f, Qabs (f - snd (bitFrequencyPairs !!! i)) == 49.9 ->
     49.9 < minDiff st ->
     step1 (bitFrequencyPairs !!! i) st f
     = Scan false true f (Qabs (f - snd (bitFrequencyPairs !!! i))))
  /\ (forall (v : bool) (f : Q) (l1 l2 : list Q),
     Qabs (f - (if v then snd (bitFrequencyPairs !!! i)
                else fst (bitFrequencyPairs !!! i))) == 50 ->
     analyzeBits (l1 ++ f :: l2) = analyzeBits (l1 ++ l2)
     /\ frequenciesToByte (l1 ++ f :: l2) = frequenciesToByte (l1 ++ l2))
  /\ (forall (v : bool) (f : Q),
     In f freqs ->
     Qabs (f - (if v then snd (bitFrequencyPairs !!! i)
                else fst (bitFrequencyPairs !!! i))) < 50 ->
     In (snd (analyzeBits freqs) !!! i) freqs
     /\ exists v' : bool,
          fst (analyzeBits freqs) !!! i = Z.b2z v'
          /\ Z.testbit (frequenciesToByte freqs) (7 - Z.of_nat i) = v'
          /\ Qabs (snd (analyzeBits freqs) !!! i
                   - (if v' then snd (bitFrequencyPairs !!! i)
                      else fst (bitFrequencyPairs !!! i)))
             <= Qabs (f - (if v then snd (bitFrequencyPairs !!! i)
                           else fst (bitFrequencyPairs !!! i))))
  /\ (forall (v : bool) (f : Q),
     In f freqs ->
     Qabs (f - (if v then snd (bitFrequencyPairs !!! i)
                else fst (bitFrequencyPairs !!! i))) < 50 ->
     (forall g, In g freqs ->
        g = f \/ ~ in_tolerance (bitFrequencyPairs !!! i) g) ->
     fst (analyzeBits freqs) !!! i = Z.b2z v
     /\ snd (analyzeBits freqs) !!! i = f
     /\ Z.testbit (frequenciesToByte freqs) (7 - Z.of_nat i) = v)
  /\ ((exists f, In f freqs /\ in_tolerance (bitFrequencyPairs !!! i) f) ->
     xorb (bit0Detected (scan_position i freqs))
          (bit1Detected (scan_position i freqs)) = true)
  /\ ((forall f, In f freqs -> ~ in_tolerance (bitFrequencyPairs !!! i) f) ->
     scan_position i freqs = scan_init
     /\ fst (analyzeBits freqs) !!! i = 0%Z
     /\ snd (analyzeBits freqs) !!! i = 0
     /\ Z.testbit (frequenciesToByte freqs) (7 - Z.of_nat i) = false).
Proof.
  intros Hi. repeat apply conj.
  - intros st f Hd. apply step0_reject. rewrite Hd. apply Qle_refl.
  - intros st f Hd. apply step1_reject. rewrite Hd. apply Qle_refl.
  - intros st f Hd Hm. apply step0_accept.
    + rewrite Hd. reflexivity.
    + now rewrite Hd.
  - intros st f Hd Hm. apply step1_accept.
    + rewrite Hd. reflexivity.
    + now rewrite Hd.
  - intros v f l1 l2 Hd.
    pose proof (boundary_out_of_band i v f Hi Hd) as Hout.
    assert (H : analyzeBits (l1 ++ f :: l2) = analyzeBits (l1 ++ l2)).
    { apply analyzeBits_ext. intros j Hj. unfold scan_position.
      rewrite !fold_left_app. cbn [fold_left].
      now rewrite scan_step_reject by (apply Hout; exact Hj). }
    split; [exact H|]. unfold frequenciesToByte. now rewrite H.
  - intros v f Hin Hd.
    destruct (position_accepts i freqs f v Hin Hd) as [Hc Hle].
    rewrite analyzeBits_bit, analyzeBits_freq, frequenciesToByte_testbit
      by assumption.
    split; [exact Hc|].
    exists (bit1Detected (scan_position i freqs)).
    split; [now destruct (bit1Detected (scan_position i freqs))|].
    split; [reflexivity | exact Hle].
  - intros v f Hin Hd Hsole.
    assert (Hfar : 50 <= Qabs (f - (if v then fst (bitFrequencyPairs !!! i)
                                    else snd (bitFrequencyPairs !!! i)))).
    { pose proof (entry_separated i i v (negb v) Hi Hi) as Hsep.
      eapply RoundTrip.far_from; [exact Hd|].
      destruct v; apply Hsep; intros E; discriminate E. }
    assert (Hs : scan_position i freqs
                 = Scan (negb v) v f
                     (Qabs (f - (if v then snd (bitFrequencyPairs !!! i)
                                 else fst (bitFrequencyPairs !!! i))))).
    { unfold scan_position.
      apply (scan_sole _ f v freqs Hd Hfar Hsole); [now left | now intros _]. }
    rewrite analyzeBits_bit, analyzeBits_freq, frequenciesToByte_testbit
      by assumption.
    rewrite Hs. cbn [bit1Detected closestFreq].
    split; [now destruct v | split; reflexivity].
  - intros Hex.
    destruct (scan_position_inv i freqs) as [Heq|[Hx _]]; [|exact Hx].
    exfalso. revert Heq. unfold scan_position.
    apply scan_fold_detects; [now left | now right].
  - intros Hall.
    assert (Hs : scan_position i freqs = scan_init)
      by (unfold scan_position; now apply scan_none).
    split; [exact Hs|].
    rewrite analyzeBits_bit, analyzeBits_freq, frequenciesToByte_testbit
      by assumption.
    now rewrite Hs.
Qed.

Lemma tolerance_boundary_witness :
  frequenciesToByte ([] ++ 550 :: [949.9; 3300])
  = frequenciesToByte ([] ++ [949.9; 3300])
  /\ Z.testbit (frequenciesToByte [549.9; 949.9; 3300]) (7 - Z.of_nat 0) = true
  /\ snd (analyzeBits [549.9; 949.9; 3300]) !!! 0%nat = 549.9
  /\ step0 (300, 500) scan_init 350 = scan_init.
Proof.
  destruct (tolerance_boundary 0 [549.9; 949.9; 3300] ltac:(lia))
    as (H50 & _ & _ & _ & Hout & _ & Hsole & _ & _).
  destruct (Hsole true 549.9) as (_ & Hfreq & Hbit).
  - now left.
  - reflexivity.
  - intros g [<-|[<-|[<-|[]]]]; [now left | right | right];
      intros [H|H]; vm_compute in H; discriminate H.
  - split; [exact (proj2 (Hout true 550 [] [949.9; 3300] eq_refl))|].
    split; [exact Hbit|].
    split; [exact Hfreq|].
    apply (H50 scan_init 350). reflexivity.
Defined.

End Tolerance.

(** * Properties decided by rounding *)

Module Binary64Facts.
Import Binary64.

(** C8 (as amended).  The sample buffer has as many entries as the
    [double] [(1.0 / bps) * num_bytes * (sample_rate_khz * 1000.0)], each
    operation rounded to binary64, truncated toward zero, whenever that
    double is finite and its truncation is a [uint32_t]: the conversion
    does not round to nearest.  For a non-negative product the length is
    its floor, that is, its rounded value or one less. *)
Theorem buffer_length_truncated (sample_value : nat -> Z)
    (bps sample_rate_khz : float) (num_bytes : nat) (d : Q) :
  value (sample_product bps num_bytes sample_rate_khz) = Some d ->
  (0 <= Synth.Qtruncate d < 2 ^ 32)%Z ->
  exists samples : list Z,
    sine_gen_samples sample_value bps num_bytes sample_rate_khz
    = Some samples
    /\ Z.of_nat (length samples) = Synth.Qtruncate d
    /\ ((0 <= d)%Q ->
        Z.of_nat (length samples) = Qfloor d
        /\ (Synth.Qround_nearest d - 1 <= Z.of_nat (length samples)
            <= Synth.Qround_nearest d)%Z).
Proof.
  intros Hd Hr. unfold sine_gen_samples, num_samples, uint32_of_double.
  rewrite Hd. cbv zeta.
  destruct (Z.leb_spec 0 (Synth.Qtruncate d)); [|lia].
  destruct (Z.ltb_spec (Synth.Qtruncate d) (2 ^ 32)); [|lia].
  cbn [andb]. eexists. split; [reflexivity|].
  rewrite ArrayLoops.fill_length, length_replicate, Z2Nat.id by lia.
  split; [reflexivity|].
  intros Hpos.
  pose proof (SynthFacts.round_nearest_bounds d Hpos) as Hb.
  rewrite SynthFacts.Qtruncate_floor by exact Hpos.
  split; [reflexivity | lia].
Qed.

Lemma buffer_length_truncated_witness :
  exists samples : list Z,
    sine_gen_samples (fun _ => 7%Z) 128 1 0x1.60ccccccccccdp+5
    = Some samples
    /\ Z.of_nat (length samples) = 344%Z.
Proof.
  destruct (buffer_length_truncated (fun _ => 7%Z) 128 0x1.60ccccccccccdp+5
              1 _ eq_refl)
    as (samples & Hs & Hlen & _).
  - split; [vm_compute; discriminate | vm_compute; reflexivity].
  - exists samples. split; [exact Hs | exact Hlen].
Defined.

(** C8 as stated fails: one byte at 128 bytes per second and 44.1 kHz.
    Every operation is exact on these values: the product is 344.53125,
    the buffer has 344 entries, the rounded value is 345. *)
Lemma buffer_length_not_rounded :
  (exists d : Q,
     value (sample_product 128 1 0x1.60ccccccccccdp+5) = Some d
     /\ (d == 11025 # 32)%Q)
  /\ (exists samples : list Z,
        sine_gen_samples (fun _ => 0%Z) 128 1 0x1.60ccccccccccdp+5
        = Some samples
        /\ length samples = 344%nat)
  /\ Synth.Qround_nearest (inject_Z 1 / 128 * 44100)%Q = 345%Z.
Proof.
  split; [eexists; split; [vm_compute; reflexivity | reflexivity]|].
  split; [|vm_compute; reflexivity].
  eexists. split; [vm_compute; reflexivity|]. reflexivity.
Qed.

(** Rounding can also cost a sample: one byte at 49 bytes per second and
    44.1 kHz lasts exactly 900 sample periods, but the product evaluated
    in binary64 is just below 900 and the buffer has 899 entries. *)
Example buffer_length_below_exact :
  num_samples 49 1 0x1.60ccccccccccdp+5 = Some 899%Z
  /\ Synth.num_samples 49 1 (44.1 * 1000) = 900%Z.
Proof. split; vm_compute; reflexivity. Qed.

(** ** The transform *)


End Binary64Facts.

(** * The round trip: synthesizer, transform, peaks, classifier *)

Module RoundTripFacts.
Import Classifier ClassifierMore RoundTrip Synth Session.
#[local] Open Scope Q_scope.




End RoundTripFacts.
